(** * Spoke voice layer: shallow embedding of the CPAL <-> LiveKit audio bridge
    ([spoke-core/src/voice/audio.rs], [spoke-core/src/voice/mod.rs]) and of the
    voice commands of the app bridge ([spoke-app/src/bridge.rs]). *)

From Stdlib Require Import String Ascii.
From Stdlib Require Import List ZArith Lia Bool Permutation.
Import ListNotations.
Open Scope nat_scope.

(* ------------------------------------------------------------------------- *)
(** ** Audio pipeline ([voice/audio.rs]) *)

(** The last [k] elements of a list. *)
Definition lastn {A} (k : nat) (l : list A) : list A := skipn (length l - k) l.

Module Audio.

Section RingBuffer.

(** The playback ring buffer holds [f32] samples.  Floating-point arithmetic
    is kept abstract: [F32] is the sample type, [f32_of_i16 s] is the
    conversion [s as f32 / i16::MAX as f32] and [i16_of_f32 f] is
    [(f * i16::MAX as f32) as i16]. *)
Variable F32 : Type.
Variable f32_of_i16 : Z -> F32.
Variable i16_of_f32 : F32 -> Z.
Variable f32_zero : F32.

(** [VecDeque<f32>] as a list, front first. *)
Definition VecDeque := list F32.

Definition push_back (q : VecDeque) (x : F32) : VecDeque := q ++ [x].

Definition pop_front (q : VecDeque) : option F32 * VecDeque :=
  match q with
  | [] => (None, [])
  | x :: t => (Some x, t)
  end.

(** The cap: [while guard.len() > 192_000 { guard.pop_front(); }]. *)
Definition CAP : nat := Z.to_nat 192000.

(** [for &s in samples { guard.push_back(s as f32 / i16::MAX as f32); }] *)
Fixpoint push_all (q : VecDeque) (samples : list Z) : VecDeque :=
  match samples with
  | [] => q
  | s :: rest => push_all (push_back q (f32_of_i16 s)) rest
  end.

(** The [while] loop; [fuel] bounds the iterations (the loop runs at most
    [len] times since each iteration removes one element). *)
Fixpoint cap_loop (fuel : nat) (q : VecDeque) : VecDeque :=
  match fuel with
  | 0 => q
  | S fuel' =>
      if CAP <? length q then cap_loop fuel' (snd (pop_front q)) else q
  end.

(** [AudioOutput::push_samples]. *)
Definition push_samples (q : VecDeque) (samples : list Z) : VecDeque :=
  let q1 := push_all q samples in
  cap_loop (length q1) q1.

(** The body of the relay task spawned on [TrackSubscribed] for one decoded
    frame: [if let Some(ref b) = buf { ...push and cap... }].  The shared
    buffer is [None] when [AudioOutput::new] failed. *)
Definition relay_frame (buf : option VecDeque) (frame : list Z)
  : option VecDeque :=
  match buf with
  | Some b =>
      let g := push_all b frame in
      Some (cap_loop (length g) g)
  | None => None
  end.

(** [while let Some(frame) = stream.next().await { ... }]: every frame of the
    stream is consumed in arrival order. *)
Fixpoint relay_task (buf : option VecDeque) (frames : list (list Z))
  : option VecDeque :=
  match frames with
  | [] => buf
  | f :: rest => relay_task (relay_frame buf f) rest
  end.

(** Output callback: [for s in data.iter_mut() { *s = g.pop_front()...unwrap_or(zero) }]
    over [n] output slots, with [conv] the per-format conversion. *)
Fixpoint fill_slots {T : Type} (conv : F32 -> T) (zero : T) (n : nat)
  (q : VecDeque) : list T * VecDeque :=
  match n with
  | 0 => ([], q)
  | S n' =>
      let '(v, q') := pop_front q in
      let s := match v with Some f => conv f | None => zero end in
      let '(rest, q'') := fill_slots conv zero n' q' in
      (s :: rest, q'')
  end.

(** [cpal::SampleFormat] (the variants the code distinguishes, plus the rest). *)
Inductive SampleFormat := FmtF32 | FmtI16 | FmtOther (tag : nat).

(** One filled output slot of the device buffer. *)
Inductive OutSlot := SlotF32 (f : F32) | SlotI16 (s : Z).

(** [build_output_stream]: the callback of the stream it builds, or the
    [bail!] error for an unsupported format. *)
Definition build_output_stream (fmt : SampleFormat)
  : option (nat -> VecDeque -> list OutSlot * VecDeque) :=
  match fmt with
  | FmtF32 => Some (fill_slots (fun f => SlotF32 f) (SlotF32 f32_zero))
  | FmtI16 => Some (fill_slots (fun f => SlotI16 (i16_of_f32 f)) (SlotI16 0%Z))
  | FmtOther _ => None
  end.

(** Silence for a format. *)
Definition silence (fmt : SampleFormat) : OutSlot :=
  match fmt with
  | FmtI16 => SlotI16 0%Z
  | _ => SlotF32 f32_zero
  end.

Definition to_slot (fmt : SampleFormat) (f : F32) : OutSlot :=
  match fmt with
  | FmtI16 => SlotI16 (i16_of_f32 f)
  | _ => SlotF32 f
  end.

(** Operations on the shared buffer: a push (from [push_samples] or a relay
    task) or one invocation of the output callback with [n] slots. *)
Inductive BufOp := OpPush (samples : list Z) | OpCallback (n : nat).

Definition buf_step (fmt : SampleFormat) (q : VecDeque) (op : BufOp) : VecDeque :=
  match op with
  | OpPush s => push_samples q s
  | OpCallback n =>
      match build_output_stream fmt with
      | Some cb => snd (cb n q)
      | None => q
      end
  end.

Fixpoint buf_run (fmt : SampleFormat) (q : VecDeque) (ops : list BufOp) : VecDeque :=
  match ops with
  | [] => q
  | op :: rest => buf_run fmt (buf_step fmt q op) rest
  end.

End RingBuffer.

End Audio.

(* ------------------------------------------------------------------------- *)
(** ** Capture feeder task ([AudioCapture::start], Step 5) *)

Module Capture.

(** [livekit::webrtc::audio_frame::AudioFrame], all [u32] fields as [Z]. *)
Record AudioFrame := {
  data : list Z;
  sample_rate : Z;
  num_channels : Z;
  samples_per_channel : Z }.

(** The frame built for one captured batch [samples] (a [Vec<i16>] received
    from [pcm_rx]), given the value [muted] read from the shared flag:
    [samples_per_channel = (samples.len() as u32) / channels.max(1)] and the
    data is [vec![0i16; samples.len()]] when muted, [samples] otherwise. *)
Definition feeder_frame (muted : bool) (sample_rate channels : Z)
  (samples : list Z) : AudioFrame :=
  let spc := ((Z.of_nat (length samples) mod 2 ^ 32) / Z.max channels 1)%Z in
  let d := if muted then repeat 0%Z (length samples) else samples in
  {| data := d; sample_rate := sample_rate; num_channels := channels;
     samples_per_channel := spc |}.

(** The feeder loop over the batches received, each paired with the flag
    value loaded for it; the frames passed to [capture_frame], in order. *)
Fixpoint feeder_task (sample_rate channels : Z) (batches : list (bool * list Z))
  : list AudioFrame :=
  match batches with
  | [] => []
  | (m, b) :: rest =>
      feeder_frame m sample_rate channels b :: feeder_task sample_rate channels rest
  end.

End Capture.

(* ------------------------------------------------------------------------- *)
(** ** Voice session ([voice/mod.rs]) and the capture side of [audio.rs] *)

Module Session.

(** A hardware-owning OS thread ([std::thread::spawn] in [AudioCapture::start]
    and [AudioOutput::new]): [kill_closed] is true once every [kill_tx] sender
    has been dropped, [alive] while the thread has not returned.  The thread
    blocks on [kill_rx.recv()] and returns when that fails. *)
Record HwThread := { kill_closed : bool; alive : bool }.

(** A spawned thread that blocks on [kill_rx.recv()]. *)
Definition running_thread : HwThread := {| kill_closed := false; alive := true |}.

(** A spawned thread that reported an error on [ready_tx] and returned; its
    [kill_tx] is a local of the failed constructor and is dropped with it. *)
Definition failed_thread : HwThread := {| kill_closed := true; alive := false |}.

(** Dropping the handle that owns [kill_tx]. *)
Definition drop_kill (t : HwThread) : HwThread :=
  {| kill_closed := true; alive := alive t |}.

(** One scheduling step of the thread: [let _ = kill_rx.recv();] returns once
    the channel is closed, the thread then returns (dropping its stream). *)
Definition thread_step (t : HwThread) : HwThread :=
  if kill_closed t then {| kill_closed := true; alive := false |} else t.

(** State of the transport-room connection: not connected, open, closed by
    [Room::close], or connected and then dropped without [close] (the
    [Arc<Room>] local of [connect] going out of scope on an early return;
    what the SDK does on that drop is not part of this repository). *)
Inductive RoomConn := RoomNotConnected | RoomOpen | RoomClosed | RoomDropped.

(** State of a spawned tokio task. *)
Inductive TaskState := TaskRunning | TaskAborted.

(** Everything a [VoiceSession::connect] call creates.  [cap_thread] and
    [feeder_alive] are the capture thread and the [spawn_blocking] feeder of
    [AudioCapture::start]; [out_thread] the playback thread of
    [AudioOutput::new]; [has_output] is [output.is_some()], i.e. whether the
    relay tasks get [Some(buf)]; [muted] the shared [AtomicBool]. *)
Record VState := {
  room_conn : RoomConn;
  cap_thread : option HwThread;
  feeder_alive : bool;
  out_thread : option HwThread;
  has_output : bool;
  event_task : option TaskState;
  muted : bool;
  warnings : list string }.

Definition init_state : VState :=
  {| room_conn := RoomNotConnected; cap_thread := None; feeder_alive := false;
     out_thread := None; has_output := false; event_task := None;
     muted := false; warnings := [] |}.

(** Outcome of [AudioCapture::start]: an error in Step 1 (before any thread
    is spawned), an error reported by the capture thread on [ready_tx]
    (the thread has returned), or success. *)
Inductive CaptureStart := CapNoDevice | CapNoConfig | CapThreadFailed | CapStarted.

(** Outcome of [AudioOutput::new], with the same structure. *)
Inductive OutputNew := OutNoDevice | OutNoConfig | OutThreadFailed | OutStarted.

(** The results of the external calls made by [connect]. *)
Record ConnectEnv := {
  room_connect_ok : bool;     (* Room::connect(..).await *)
  capture_start : CaptureStart;
  publish_ok : bool;          (* publish_track(..).await *)
  output_new : OutputNew }.

Inductive ConnectResult := ConnectOk | ConnectErr.

(** The state fields of [AudioCapture::start]. *)
Definition capture_start_state (c : CaptureStart) (st : VState) : VState * bool :=
  match c with
  | CapNoDevice | CapNoConfig => (st, false)
  | CapThreadFailed =>
      ({| room_conn := room_conn st; cap_thread := Some failed_thread;
          feeder_alive := false; out_thread := out_thread st;
          has_output := has_output st; event_task := event_task st;
          muted := muted st; warnings := warnings st |}, false)
  | CapStarted =>
      (* [AtomicBool::new(false)], thread running, feeder spawned *)
      ({| room_conn := room_conn st; cap_thread := Some running_thread;
          feeder_alive := true; out_thread := out_thread st;
          has_output := has_output st; event_task := event_task st;
          muted := false; warnings := warnings st |}, true)
  end.

(** Dropping the [AudioCapture] local (early return through [?]). *)
Definition drop_capture (st : VState) : VState :=
  {| room_conn := room_conn st; cap_thread := option_map drop_kill (cap_thread st);
     feeder_alive := feeder_alive st; out_thread := out_thread st;
     has_output := has_output st; event_task := event_task st;
     muted := muted st; warnings := warnings st |}.

(** [AudioOutput::new] matched in [connect]: [Ok(o) => Some(o)],
    [Err(e) => { warn!(..); None }]. *)
Definition output_state (o : OutputNew) (st : VState) : VState :=
  match o with
  | OutNoDevice | OutNoConfig =>
      {| room_conn := room_conn st; cap_thread := cap_thread st;
         feeder_alive := feeder_alive st; out_thread := None;
         has_output := false; event_task := event_task st; muted := muted st;
         warnings := warnings st ++ ["audio output unavailable"%string] |}
  | OutThreadFailed =>
      {| room_conn := room_conn st; cap_thread := cap_thread st;
         feeder_alive := feeder_alive st; out_thread := Some failed_thread;
         has_output := false; event_task := event_task st; muted := muted st;
         warnings := warnings st ++ ["audio output unavailable"%string] |}
  | OutStarted =>
      {| room_conn := room_conn st; cap_thread := cap_thread st;
         feeder_alive := feeder_alive st; out_thread := Some running_thread;
         has_output := true; event_task := event_task st; muted := muted st;
         warnings := warnings st |}
  end.

Definition with_room (r : RoomConn) (st : VState) : VState :=
  {| room_conn := r; cap_thread := cap_thread st; feeder_alive := feeder_alive st;
     out_thread := out_thread st; has_output := has_output st;
     event_task := event_task st; muted := muted st; warnings := warnings st |}.

Definition with_event_task (t : option TaskState) (st : VState) : VState :=
  {| room_conn := room_conn st; cap_thread := cap_thread st;
     feeder_alive := feeder_alive st; out_thread := out_thread st;
     has_output := has_output st; event_task := t; muted := muted st;
     warnings := warnings st |}.

(** [VoiceSession::connect]: the result and the state left behind at the
    moment it returns (for an error, the state after the locals in scope,
    the room and the capture, have been dropped; nothing is joined). *)
Definition connect (env : ConnectEnv) : ConnectResult * VState :=
  let st0 := init_state in
  if negb (room_connect_ok env) then (ConnectErr, st0) else
  let st1 := with_room RoomOpen st0 in
  let '(st2, cap_ok) := capture_start_state (capture_start env) st1 in
  if negb cap_ok then (ConnectErr, with_room RoomDropped st2) else
  if negb (publish_ok env) then (ConnectErr, with_room RoomDropped (drop_capture st2)) else
  let st3 := output_state (output_new env) st2 in
  (ConnectOk, with_event_task (Some TaskRunning) st3).

(** The threads' next scheduling step after [connect] has returned: the
    hardware threads observe their kill channel, and the feeder's
    [pcm_rx.recv()] fails once the capture thread (which owns [pcm_tx] inside
    its stream callback) has returned. *)
Definition settle (st : VState) : VState :=
  let c := option_map thread_step (cap_thread st) in
  let cap_gone := match c with Some t => negb (alive t) | None => true end in
  {| room_conn := room_conn st; cap_thread := c;
     feeder_alive := feeder_alive st && negb cap_gone;
     out_thread := option_map thread_step (out_thread st);
     has_output := has_output st; event_task := event_task st;
     muted := muted st; warnings := warnings st |}.

(** [VoiceSession::set_muted] / [VoiceSession::is_muted]. *)
Definition set_muted (b : bool) (st : VState) : VState :=
  {| room_conn := room_conn st; cap_thread := cap_thread st;
     feeder_alive := feeder_alive st; out_thread := out_thread st;
     has_output := has_output st; event_task := event_task st; muted := b;
     warnings := warnings st |}.

Definition is_muted (st : VState) : bool := muted st.

(** [VoiceSession::disconnect(&self)]: [self._event_handle.abort()], then
    [self.room.close().await], an error being logged.  [close_ok] is the
    result of [Room::close]. *)
Definition disconnect (close_ok : bool) (st : VState) : VState :=
  let st1 := with_event_task (option_map (fun _ => TaskAborted) (event_task st)) st in
  if close_ok then with_room RoomClosed st1
  else
    {| room_conn := room_conn st1; cap_thread := cap_thread st1;
       feeder_alive := feeder_alive st1; out_thread := out_thread st1;
       has_output := has_output st1; event_task := event_task st1;
       muted := muted st1; warnings := warnings st1 ++ ["room close"%string] |}.

(** Dropping a [VoiceSession]: its [AudioCapture] and [Option<AudioOutput>]
    fields are dropped, closing their kill channels. *)
Definition drop_session (st : VState) : VState :=
  {| room_conn := room_conn st; cap_thread := option_map drop_kill (cap_thread st);
     feeder_alive := feeder_alive st; out_thread := option_map drop_kill (out_thread st);
     has_output := has_output st; event_task := event_task st;
     muted := muted st; warnings := warnings st |}.

End Session.

(* ------------------------------------------------------------------------- *)
(** ** Room-event dispatch task ([VoiceSession::connect], [voice/mod.rs]) *)

Module Dispatch.

(** The [RoomEvent]s the task distinguishes, and the rename event, which it
    ignores ([_ => {}]) but which changes a participant's name in the map. *)
Inductive RoomEvent :=
  | TrackSubscribed (is_audio : bool)
  | ParticipantConnected (identity name : string)
  | ParticipantDisconnected (identity : string)
  | ParticipantNameChanged (identity name : string)
  | OtherRoomEvent.

(** [VoiceEvent]. *)
Inductive VoiceEvent :=
  | ParticipantsUpdated (names : list string)
  | VoiceError (msg : string).

(** The room's remote participants, identity to display name. *)
Definition Members := list (string * string).

Definition remove_member (id : string) (m : Members) : Members :=
  filter (fun p => negb (String.eqb (fst p) id)) m.

(** How the transport room updates its participant map for an event, which
    it does before queueing the event for the task. *)
Definition room_apply (m : Members) (ev : RoomEvent) : Members :=
  match ev with
  | ParticipantConnected id nm => remove_member id m ++ [(id, nm)]
  | ParticipantDisconnected id => remove_member id m
  | ParticipantNameChanged id nm =>
      map (fun p => if String.eqb (fst p) id then (id, nm) else p) m
  | _ => m
  end.

(** [room_ev.remote_participants().values().map(|p| p.name().to_owned()).collect()]:
    the names in the iteration order of the room's participant map, a
    [HashMap], whose order is unspecified; any permutation may come out. *)
Definition participant_names (m : Members) (names : list string) : Prop :=
  Permutation names (map snd m).

Definition is_participant_event (ev : RoomEvent) : bool :=
  match ev with
  | ParticipantConnected _ _ | ParticipantDisconnected _ => true
  | _ => false
  end.

(** One event handled by the task, [m] being the participant map as it is
    when the task handles the event: [ParticipantConnected] and
    [ParticipantDisconnected] send [ParticipantsUpdated(names)], read from
    the map at that moment; every other event sends nothing. *)
Inductive handle_event : Members -> RoomEvent -> list VoiceEvent -> Prop :=
  | HConnected : forall m id nm names,
      participant_names m names ->
      handle_event m (ParticipantConnected id nm) [ParticipantsUpdated names]
  | HDisconnected : forall m id names,
      participant_names m names ->
      handle_event m (ParticipantDisconnected id) [ParticipantsUpdated names]
  | HQuiet : forall m ev, is_participant_event ev = false -> handle_event m ev [].

(** The room's participant map and the events queued on the unbounded
    [events] receiver, not yet taken by the task. *)
Record DState := { members : Members; queue : list RoomEvent }.

(** What happens next: the room receives an event (updates its map, queues
    the event), or the task takes the oldest queued event
    ([events.recv().await]) and handles it.  The two interleave freely: the
    task may lag behind the room. *)
Inductive DLabel := LRoom (ev : RoomEvent) | LHandle.

Inductive dstep : DState -> DLabel -> DState -> list VoiceEvent -> Prop :=
  | DRoom : forall s ev,
      dstep s (LRoom ev)
        {| members := room_apply (members s) ev; queue := queue s ++ [ev] |} []
  | DHandle : forall s ev rest out,
      queue s = ev :: rest ->
      handle_event (members s) ev out ->
      dstep s LHandle {| members := members s; queue := rest |} out.

(** A run of steps and the notifications sent, in order. *)
Inductive dispatch_run : DState -> list DLabel -> DState -> list VoiceEvent -> Prop :=
  | DNil : forall s, dispatch_run s [] s []
  | DCons : forall s l s1 out1 ls s2 out2,
      dstep s l s1 out1 ->
      dispatch_run s1 ls s2 out2 ->
      dispatch_run s (l :: ls) s2 (out1 ++ out2).

(** The events the room received during a run, in order. *)
Fixpoint room_events (ls : list DLabel) : list RoomEvent :=
  match ls with
  | [] => []
  | LRoom ev :: rest => ev :: room_events rest
  | LHandle :: rest => room_events rest
  end.

(** The number of events the task took during a run. *)
Fixpoint handled (ls : list DLabel) : nat :=
  match ls with
  | [] => 0
  | LRoom _ :: rest => handled rest
  | LHandle :: rest => S (handled rest)
  end.

(** Whether the [h]-th event of [R] is a participant event. *)
Definition participant_at (R : list RoomEvent) (h : nat) : bool :=
  match nth_error R h with Some ev => is_participant_event ev | None => false end.

End Dispatch.

(* ------------------------------------------------------------------------- *)
(** ** Voice commands of the app bridge ([spoke-app/src/bridge.rs]) *)

Module Bridge.

Import Session.

(** Outcome of the sidecar token request and the parse of its response. *)
Inductive Sidecar := SidecarOk | SidecarStatusErr | SidecarRequestErr | SidecarParseErr.

(** The results of the external calls of one [AppCommand::JoinVoice]
    for its [room_id]. *)
Record JoinEnv := {
  has_matrix_session : bool;  (* inner.session() is Some(AuthSession::Matrix) *)
  room_id_parses : bool;      (* RoomId::parse(&room_id) is Ok *)
  room_known : bool;          (* inner.get_room(&rid) is Some *)
  join_send_ok : bool;        (* room.send(content).await is Ok *)
  sidecar : Sidecar;
  connect_env : ConnectEnv;
  old_close_ok : bool }.      (* Room::close of a session torn down first *)

(** What the handler does, in order. *)
Inductive Action :=
  | DisconnectOld
  | SendJoin (session_id : string)
  | Warn
  | SidecarRequest
  | MediaConnect
  | EmitError
  | EmitVoiceJoined.

(** State of the command handler: [voice], [voice_room_id], the torn-down
    sessions, and the number of [Uuid::new_v4()] draws so far ([uuid_gen n]
    is the [n]-th draw). *)
Record Handler := {
  voice : option VState;
  voice_room_id : option string;
  dropped : list VState;
  draws : nat }.

Section Commands.

Variable uuid_gen : nat -> string.

(** [if let Some(old) = voice.take() { old.disconnect().await; }]: [old] is
    dropped at the end of the block. *)
Definition teardown_old (close_ok : bool) (h : Handler) : Handler * list Action :=
  match voice h with
  | Some old =>
      ({| voice := None; voice_room_id := voice_room_id h;
          dropped := dropped h ++ [drop_session (disconnect close_ok old)];
          draws := draws h |}, [DisconnectOld])
  | None => (h, [])
  end.

(** [AppCommand::JoinVoice { room_id }]. *)
Definition join_voice (env : JoinEnv) (room_id : string) (h : Handler)
  : Handler * list Action :=
  let '(h1, a0) := teardown_old (old_close_ok env) h in
  if negb (has_matrix_session env) then (h1, a0 ++ [Warn; EmitError]) else
  let session_id := uuid_gen (draws h1) in
  let h2 := {| voice := voice h1; voice_room_id := voice_room_id h1;
               dropped := dropped h1; draws := S (draws h1) |} in
  let a1 := if room_id_parses env && room_known env
            then SendJoin session_id :: (if join_send_ok env then [] else [Warn])
            else [] in
  let a2 := a0 ++ a1 ++ [SidecarRequest] in
  match sidecar env with
  | SidecarOk =>
      match connect (connect_env env) with
      | (ConnectOk, st) =>
          ({| voice := Some st; voice_room_id := Some room_id; dropped := dropped h2;
              draws := draws h2 |}, a2 ++ [MediaConnect; EmitVoiceJoined])
      | (ConnectErr, st) =>
          ({| voice := voice h2; voice_room_id := voice_room_id h2;
              dropped := dropped h2 ++ [st]; draws := draws h2 |},
           a2 ++ [MediaConnect; Warn; EmitError])
      end
  | _ => (h2, a2 ++ [Warn; EmitError])
  end.

(** [AppCommand::LeaveVoice], its state change: the session is torn down
    and [voice_room_id.take()] clears the room. *)
Definition leave_voice (close_ok : bool) (h : Handler) : Handler :=
  let '(h1, _) := teardown_old close_ok h in
  {| voice := voice h1; voice_room_id := None; dropped := dropped h1;
     draws := draws h1 |}.

(** A sequence of [JoinVoice] commands, each with its room id; the actions
    of each. *)
Fixpoint join_many (envs : list (JoinEnv * string)) (h : Handler)
  : Handler * list (list Action) :=
  match envs with
  | [] => (h, [])
  | (e, r) :: rest =>
      let '(h1, a) := join_voice e r h in
      let '(h2, as_) := join_many rest h1 in
      (h2, a :: as_)
  end.

End Commands.

(** The session ids sent in a list of actions. *)
Fixpoint sent_ids (acts : list Action) : list string :=
  match acts with
  | [] => []
  | SendJoin sid :: rest => sid :: sent_ids rest
  | _ :: rest => sent_ids rest
  end.

End Bridge.

(* ------------------------------------------------------------------------- *)
(** ** Capture hand-off channel ([AudioCapture::start], Steps 3-5) *)

Module HandOff.

(** [std::sync::mpsc::sync_channel::<Vec<i16>>(8)]: at most 8 pending batches. *)
Definition SYNC_CAP : nat := 8.

(** [let _ = pcm_tx.try_send(samples);] in the input callback: the batch is
    queued when fewer than 8 are pending, and dropped ([Err(Full)] ignored)
    otherwise. *)
Definition try_send (pending : list (list Z)) (b : list Z) : list (list Z) :=
  if length pending <? SYNC_CAP then pending ++ [b] else pending.

(** What happens on the channel: a batch produced by the input callback, or
    one [pcm_rx.recv()] of the feeder (which waits while nothing is pending). *)
Inductive HOp := HCapture (b : list Z) | HRecv.

(** Pending batches and the batches handed to the feeder, in order. *)
Definition HState := (list (list Z) * list (list Z))%type.

Definition hstep (st : HState) (op : HOp) : HState :=
  let '(pending, delivered) := st in
  match op with
  | HCapture b => (try_send pending b, delivered)
  | HRecv =>
      match pending with
      | [] => (pending, delivered)
      | b :: rest => (rest, delivered ++ [b])
      end
  end.

Fixpoint hrun (st : HState) (ops : list HOp) : HState :=
  match ops with
  | [] => st
  | op :: rest => hrun (hstep st op) rest
  end.

(** The batches the input callback produced. *)
Fixpoint captured (ops : list HOp) : list (list Z) :=
  match ops with
  | [] => []
  | HCapture b :: rest => b :: captured rest
  | HRecv :: rest => captured rest
  end.

(** [l1] is obtained from [l2] by deleting elements (order kept). *)
Inductive subseq {A : Type} : list A -> list A -> Prop :=
  | subseq_nil : subseq [] []
  | subseq_take : forall x l1 l2, subseq l1 l2 -> subseq (x :: l1) (x :: l2)
  | subseq_skip : forall x l1 l2, subseq l1 l2 -> subseq l1 (x :: l2).

End HandOff.

(* ------------------------------------------------------------------------- *)
(** ** [LeaveVoice] and [MuteVoice] of the app bridge ([bridge.rs]) *)

Module VoiceCommands.

Import Session Bridge.

(** Resolving a stored room id: [RoomId::parse(..)] is Ok, and
    [inner.get_room(..)] is Some. *)
Record RoomLookup := { lookup_parses : string -> bool; lookup_known : string -> bool }.

(** Messages, with the room they are sent to, and UI events produced by the
    two handlers. *)
Inductive Signal := SigLeave (room : string) | SigMute (room : string) (muted : bool)
  | SigVoiceLeft.

(** [if let Some(rid_str) = voice_room_id { if let Ok(rid) = RoomId::parse(..)
    { if let Some(room) = inner.get_room(&rid) { room.send(..) } } }]. *)
Definition send_to_voice_room (lk : RoomLookup) (rid : option string)
  (msg : string -> Signal) : list Signal :=
  match rid with
  | Some r => if lookup_parses lk r && lookup_known lk r then [msg r] else []
  | None => []
  end.

(** [AppCommand::LeaveVoice]: tear down the session (if any), send
    [VoiceLeaveEventContent] to the stored room if it resolves, clear
    [voice_room_id], and always send [AppEvent::VoiceLeft]. *)
Definition leave_voice_cmd (close_ok : bool) (lk : RoomLookup) (h : Handler)
  : Handler * list Signal :=
  (leave_voice close_ok h, send_to_voice_room lk (voice_room_id h) SigLeave ++ [SigVoiceLeft]).

(** [AppCommand::MuteVoice { muted }]: only with a session, whose flag is
    set, then [VoiceMuteEventContent { muted }] goes to the stored room if it
    resolves. *)
Definition mute_voice_cmd (b : bool) (lk : RoomLookup) (h : Handler)
  : Handler * list Signal :=
  match voice h with
  | Some st =>
      ({| voice := Some (set_muted b st); voice_room_id := voice_room_id h;
          dropped := dropped h; draws := draws h |},
       send_to_voice_room lk (voice_room_id h) (fun r => SigMute r b))
  | None => (h, [])
  end.

End VoiceCommands.

(* ------------------------------------------------------------------------- *)
(** ** UI state of the app ([spoke-app/src/app.rs], [SpokeApp::update]) *)

Module Ui.

(** [RoomInfo { id, name }]. *)
Definition RoomInfo := (string * string)%type.

(** The fields of [SpokeApp] the room and voice handling touches. *)
Record UiState := {
  rooms : list RoomInfo;
  selected_room : option nat;
  in_voice : bool;
  voice_muted : bool;
  voice_room_id : option string;
  voice_participants : list string }.

Definition ui_init : UiState :=
  {| rooms := []; selected_room := None; in_voice := false; voice_muted := false;
     voice_room_id := None; voice_participants := [] |}.

(** [AppEvent]s handled on these fields, the room list and the header
    buttons. *)
Inductive UiInput :=
  | EvRoomsUpdated (rs : list RoomInfo)
  | EvJoined (room_id : string)
  | EvVoiceJoined (room_id : string)
  | EvVoiceLeft
  | EvVoiceParticipants (ps : list string)
  | ClickRoom (i : nat)
  | ClickLeaveRoom
  | ClickLeaveVoice
  | ClickMute
  | ClickJoinVoice.

(** [AppCommand]s sent by the buttons. *)
Inductive UiCmd :=
  | CmdLeaveRoom (room_id : string)
  | CmdLeaveVoice
  | CmdMuteVoice (muted : bool)
  | CmdJoinVoice (room_id : string).

Definition with_selected (s : option nat) (u : UiState) : UiState :=
  {| rooms := rooms u; selected_room := s; in_voice := in_voice u;
     voice_muted := voice_muted u; voice_room_id := voice_room_id u;
     voice_participants := voice_participants u |}.

Definition with_voice (iv vm : bool) (vr : option string) (ps : list string)
  (u : UiState) : UiState :=
  {| rooms := rooms u; selected_room := selected_room u; in_voice := iv;
     voice_muted := vm; voice_room_id := vr; voice_participants := ps |}.

(** [AppEvent::RoomsUpdated(rooms)]. *)
Definition rooms_updated (rs : list RoomInfo) (u : UiState) : UiState :=
  let sel :=
    match selected_room u with
    | Some i =>
        if length rs <=? i
        then (match rs with [] => None | _ => Some (length rs - 1) end)
        else Some i
    | None => None
    end in
  let sel' := match sel, rs with None, _ :: _ => Some 0 | _, _ => sel end in
  {| rooms := rs; selected_room := sel'; in_voice := in_voice u;
     voice_muted := voice_muted u; voice_room_id := voice_room_id u;
     voice_participants := voice_participants u |}.

(** [self.rooms.iter().position(|r| r.id == room_id)]. *)
Fixpoint position (rid : string) (rs : list RoomInfo) : option nat :=
  match rs with
  | [] => None
  | r :: rest =>
      if String.eqb (fst r) rid then Some 0
      else option_map S (position rid rest)
  end.

(** [current.map(|r| r.id.clone())] with
    [current = self.selected_room.and_then(|i| self.rooms.get(i))]. *)
Definition current_room_id (u : UiState) : option string :=
  match selected_room u with
  | Some i => option_map fst (nth_error (rooms u) i)
  | None => None
  end.

Definition opt_string_eqb (a b : option string) : bool :=
  match a, b with
  | Some x, Some y => String.eqb x y
  | None, None => true
  | _, _ => false
  end.

(** One input: the event handlers of [update], a click on the room list, and
    the header buttons (shown only when [self.selected_room.is_some()]). *)
Definition ui_step (u : UiState) (inp : UiInput) : UiState * list UiCmd :=
  let rid := current_room_id u in
  let here := in_voice u && opt_string_eqb (voice_room_id u) rid in
  let shown := match selected_room u with Some _ => true | None => false end in
  match inp with
  | EvRoomsUpdated rs => (rooms_updated rs u, [])
  | EvJoined r =>
      match position r (rooms u) with
      | Some i => (with_selected (Some i) u, [])
      | None => (u, [])
      end
  | EvVoiceJoined r =>
      (with_voice true (voice_muted u) (Some r) [] u, [])
  | EvVoiceLeft => (with_voice false false None [] u, [])
  | EvVoiceParticipants ps =>
      (with_voice (in_voice u) (voice_muted u) (voice_room_id u) ps u, [])
  | ClickRoom i =>
      (* one selectable label per entry of [self.rooms] *)
      if i <? length (rooms u) then (with_selected (Some i) u, []) else (u, [])
  | ClickLeaveRoom =>
      if shown then
        match rid with
        | Some r => (with_selected None u, [CmdLeaveRoom r])
        | None => (u, [])
        end
      else (u, [])
  | ClickLeaveVoice =>
      if shown && here then (u, [CmdLeaveVoice]) else (u, [])
  | ClickMute =>
      if shown && here then
        let m := negb (voice_muted u) in
        (with_voice (in_voice u) m (voice_room_id u) (voice_participants u) u,
         [CmdMuteVoice m])
      else (u, [])
  | ClickJoinVoice =>
      if shown && negb here && negb (in_voice u) then
        match rid with
        | Some r => (u, [CmdJoinVoice r])
        | None => (u, [])
        end
      else (u, [])
  end.

(** The selected room, if any, is an entry of the room list. *)
Definition selection_valid (u : UiState) : Prop :=
  match selected_room u with
  | Some i => i < length (rooms u)
  | None => True
  end.

(** The voice fields agree: a voice room is recorded exactly while in voice,
    and the mute flag is only set while in voice. *)
Definition voice_fields_agree (u : UiState) : Prop :=
  (in_voice u = true <-> voice_room_id u <> None) /\
  (voice_muted u = true -> in_voice u = true).

Fixpoint ui_run (u : UiState) (inps : list UiInput) : UiState * list UiCmd :=
  match inps with
  | [] => (u, [])
  | i :: rest =>
      let '(u1, c1) := ui_step u i in
      let '(u2, c2) := ui_run u1 rest in
      (u2, c1 ++ c2)
  end.

End Ui.

(* ------------------------------------------------------------------------- *)
(** ** Matrix client ([spoke-core/src/matrix/client.rs]) *)

Module MatrixClient.

(** [SpokeClient::full_mxid]: [host] is
    [self.inner.homeserver().host_str()]. *)
Definition full_mxid (username : string) (host : option string) : string :=
  if String.prefix "@" username then username
  else
    let server := match host with Some h => h | None => "localhost"%string end in
    String.append "@" (String.append username (String.append ":" server)).

(** The outcomes of the calls [SpokeClient::login] makes. *)
Record LoginEnv := {
  logged_in : bool;                 (* self.inner.logged_in() *)
  saved_session_loads : bool;       (* Self::load_session(..) is Some *)
  restore_ok : bool;                (* restore_session(..).await is Ok *)
  host_str : option string;
  user_id_parses : string -> bool;  (* UserId::parse(&mxid) is Ok *)
  login_send_ok : bool;             (* login_username(..).send().await is Ok *)
  session_present : bool;           (* self.inner.session() is Some(Matrix) *)
  serialise_ok : bool }.            (* serde_json::to_string(&session) is Ok *)

Inductive LoginAction :=
  | RestoreSession
  | RemoveSessionFile
  | PasswordLogin (mxid : string)
  | WriteSessionFile.

Inductive MatrixError := InvalidUserId | Sdk.

Inductive LoginResult := LoginOk | LoginErr (e : MatrixError).

(** [SpokeClient::login]: its result and the effects it performs, in order. *)
Definition login (env : LoginEnv) (username : string) : LoginResult * list LoginAction :=
  if logged_in env then (LoginOk, []) else
  let restored :=
    if saved_session_loads env then
      if restore_ok env then Some [RestoreSession] else None
    else None in
  match restored with
  | Some acts => (LoginOk, acts)
  | None =>
      let pre := if saved_session_loads env then [RestoreSession; RemoveSessionFile]
                 else [] in
      let mxid := full_mxid username (host_str env) in
      if negb (user_id_parses env mxid) then (LoginErr InvalidUserId, pre) else
      if negb (login_send_ok env) then (LoginErr Sdk, pre ++ [PasswordLogin mxid]) else
      let post := if session_present env && serialise_ok env
                  then [WriteSessionFile] else [] in
      (LoginOk, pre ++ [PasswordLogin mxid] ++ post)
  end.

(** [str::contains] for a pattern. *)
Fixpoint contains (pat s : string) : bool :=
  String.prefix pat s ||
  match s with
  | EmptyString => false
  | String _ s' => contains pat s'
  end.

(** The error of [matrix_auth().register(req).await]: an HTTP error with its
    message, or any other SDK error. *)
Inductive RegisterError := RegHttp (msg : string) | RegOther (msg : string).

(** [SpokeClient::register]: [true] for [Ok(())]. *)
Definition register (outcome : option RegisterError) : bool :=
  match outcome with
  | None => true
  | Some (RegHttp msg) => contains "M_USER_IN_USE" msg
  | Some (RegOther _) => false
  end.

End MatrixClient.

(* ------------------------------------------------------------------------- *)
(** ** Token sidecar ([spoke-sidecar/src/main.rs]) *)

Module Sidecar.

(** [str::strip_prefix]. *)
Fixpoint strip_prefix (p s : string) : option string :=
  match p, s with
  | EmptyString, _ => Some s
  | String c p', String d s' => if Ascii.eqb c d then strip_prefix p' s' else None
  | String _ _, EmptyString => None
  end.

(** [AppState] without the HTTP client. *)
Record AppState := {
  livekit_url : string;
  livekit_key : string;
  livekit_secret : string;
  turn_secret : option string;
  turn_host : option string }.

Record TurnServer := { urls : string; username : string; credential : string }.

Record TokenResponse := {
  resp_livekit_url : string;
  resp_livekit_token : string;
  turn_servers : list TurnServer }.

(** [VideoGrants] as set by the handler, with the token's identity and name. *)
Record Grants := {
  identity : string;
  name : string;
  room_join : bool;
  room : string;
  can_publish : bool;
  can_subscribe : bool }.

Inductive StatusCode := Unauthorized | InternalServerError.

(** The whoami round trip: the request failed, or it returned a status and,
    when the body parses as JSON, the [user_id] field if it is a string. *)
Inductive Whoami :=
  | WhoamiSendErr
  | WhoamiReply (success : bool) (body : option (option string)).

Section Handler.

(** Library code used by the sidecar, kept abstract: the URL-safe unpadded
    base64 encoding of the room id, the JWT signing (which may fail), the
    HMAC-SHA1 of the TURN username under the secret, base64-encoded ([None]
    when the key is refused), and the decimal rendering of a [u64]. *)
Variable base64_url_nopad : string -> string.
Variable to_jwt : string -> string -> Grants -> option string.
Variable hmac_sha1_b64 : string -> string -> option string.
Variable u64_to_string : Z -> string.

(** [build_turn_servers]; [now] is the seconds since the epoch (0 before it).
    [as_secs() + 86400] is [u64] addition, written with its wrap-around. *)
Definition build_turn_servers (st : AppState) (now : Z) (user_id : string)
  : list TurnServer :=
  match turn_secret st, turn_host st with
  | Some secret, Some host =>
      let expiry := ((now + 86400) mod 2 ^ 64)%Z in
      let uname := String.append (u64_to_string expiry) (String.append ":" user_id) in
      match hmac_sha1_b64 secret uname with
      | Some cred =>
          [{| urls := String.append "turn:" (String.append host ":3478");
              username := uname; credential := cred |}]
      | None => []
      end
  | _, _ => []
  end.

(** [token_handler]: [auth] is the [Authorization] header as a string (when
    present and valid UTF-8); the boolean is whether whoami was contacted. *)
Definition token_handler (st : AppState) (now : Z) (auth : option string)
  (room_id : string) (whoami : Whoami) : (TokenResponse + StatusCode) * bool :=
  let bearer := match auth with Some v => strip_prefix "Bearer " v | None => None end in
  match bearer with
  | None => (inr Unauthorized, false)
  | Some _bearer =>
      match whoami with
      | WhoamiSendErr => (inr InternalServerError, true)
      | WhoamiReply false _ => (inr Unauthorized, true)
      | WhoamiReply true None => (inr InternalServerError, true)
      | WhoamiReply true (Some None) => (inr InternalServerError, true)
      | WhoamiReply true (Some (Some user_id)) =>
          let grants := {| identity := user_id; name := user_id; room_join := true;
                           room := base64_url_nopad room_id; can_publish := true;
                           can_subscribe := true |} in
          match to_jwt (livekit_key st) (livekit_secret st) grants with
          | None => (inr InternalServerError, true)
          | Some tok =>
              (inl {| resp_livekit_url := livekit_url st; resp_livekit_token := tok;
                      turn_servers := build_turn_servers st now user_id |}, true)
          end
      end
  end.

End Handler.

(** The JSON keys of a serialized [TokenResponse]
    ([skip_serializing_if = "Vec::is_empty"] on [turn_servers]). *)
Definition response_keys (r : TokenResponse) : list string :=
  ["livekit_url"%string; "livekit_token"%string] ++
  match turn_servers r with [] => [] | _ => ["turn_servers"%string] end.

End Sidecar.


(* ========================================================================= *)
(** * Proofs *)

(** ** Ring buffer *)

Module AudioFacts.

Import Audio.

Lemma CAP_Z : Z.of_nat CAP = 192000%Z.
Proof. unfold CAP. apply Z2Nat.id. lia. Qed.

Local Opaque CAP.

Lemma lastn_small {A} (k : nat) (l : list A) : length l <= k -> lastn k l = l.
Proof. intros H. unfold lastn. replace (length l - k) with 0 by lia. reflexivity. Qed.

Lemma lastn_length {A} (k : nat) (l : list A) : length (lastn k l) = Nat.min k (length l).
Proof. unfold lastn. rewrite length_skipn. lia. Qed.

Lemma lastn_cons {A} (k : nat) (x : A) (t : list A) :
  k < S (length t) -> lastn k (x :: t) = lastn k t.
Proof.
  intros H. unfold lastn. cbn [length].
  replace (S (length t) - k) with (S (length t - k)) by lia. reflexivity.
Qed.

(** Dropping a prefix does not change the last [k] elements when at least
    [k] elements remain. *)
Lemma lastn_app_long {A} (k : nat) (l1 l2 : list A) :
  k <= length l2 -> lastn k (l1 ++ l2) = lastn k l2.
Proof.
  intros H. unfold lastn. rewrite length_app, skipn_app.
  rewrite skipn_all2 by lia. cbn [app]. f_equal. lia.
Qed.

Lemma lastn_lastn_app {A} (k : nat) (l m : list A) :
  lastn k (lastn k l ++ m) = lastn k (l ++ m).
Proof.
  destruct (Nat.le_gt_cases (length l) k) as [Hle | Hgt].
  - rewrite (lastn_small k l Hle). reflexivity.
  - rewrite <- (firstn_skipn (length l - k) l) at 2.
    rewrite <- app_assoc, (lastn_app_long k (firstn _ l)); [reflexivity |].
    rewrite length_app, length_skipn. lia.
Qed.

Section Facts.

Variable F32 : Type.
Variable f32_of_i16 : Z -> F32.
Variable i16_of_f32 : F32 -> Z.
Variable f32_zero : F32.

Local Abbreviation push := (push_samples F32 f32_of_i16).

Lemma push_all_app (q : VecDeque F32) (s : list Z) :
  push_all F32 f32_of_i16 q s = q ++ map f32_of_i16 s.
Proof.
  revert q. induction s as [|x s IH]; intros q; cbn.
  - now rewrite app_nil_r.
  - rewrite IH. unfold push_back. now rewrite <- app_assoc.
Qed.

(** The [while] loop keeps the last [CAP] samples. *)
Lemma cap_loop_lastn (fuel : nat) (q : VecDeque F32) :
  length q - CAP <= fuel -> cap_loop F32 fuel q = lastn CAP q.
Proof.
  revert q. induction fuel as [|fuel IH]; intros q H; cbn [cap_loop].
  - symmetry. apply lastn_small. lia.
  - destruct (Nat.ltb_spec CAP (length q)) as [Hlt | Hge].
    + destruct q as [|x t]; cbn [length pop_front snd] in Hlt, H |- *; [lia |].
      rewrite IH by lia. symmetry. apply lastn_cons. lia.
    + symmetry. apply lastn_small. lia.
Qed.

Lemma push_samples_lastn (q : VecDeque F32) (s : list Z) :
  push q s = lastn CAP (q ++ map f32_of_i16 s).
Proof.
  unfold push_samples. rewrite push_all_app. apply cap_loop_lastn. lia.
Qed.

Lemma relay_frame_some (q : VecDeque F32) (frame : list Z) :
  relay_frame F32 f32_of_i16 (Some q) frame = Some (push q frame).
Proof. reflexivity. Qed.

Lemma push_samples_length (q : VecDeque F32) (s : list Z) :
  length (push q s) <= CAP.
Proof. rewrite push_samples_lastn, lastn_length. lia. Qed.

(** The output callback pops one sample per slot and fills the rest with
    silence. *)
Lemma fill_slots_spec {T} (conv : F32 -> T) (zero : T) (n : nat) (q : VecDeque F32) :
  fill_slots F32 conv zero n q =
  (map conv (firstn n q) ++ repeat zero (n - length q), skipn n q).
Proof.
  revert q. induction n as [|n IH]; intros q; cbn.
  - reflexivity.
  - destruct q as [|x t]; cbn; rewrite IH; cbn.
    + rewrite firstn_nil, skipn_nil, Nat.sub_0_r. reflexivity.
    + reflexivity.
Qed.

Lemma callback_shrinks (fmt : SampleFormat) (q : VecDeque F32) (n : nat) :
  length (buf_step F32 f32_of_i16 i16_of_f32 f32_zero fmt q (OpCallback n)) <= length q.
Proof.
  destruct fmt; cbn; try rewrite fill_slots_spec; cbn;
    rewrite ?length_skipn; lia.
Qed.

(** Pushing sample by sample. *)
Definition push_each (q : VecDeque F32) (input : list Z) : VecDeque F32 :=
  fold_left (fun b s => push b [s]) input q.

Lemma push_each_lastn (q : VecDeque F32) (input : list Z) :
  push_each (lastn CAP q) input = lastn CAP (q ++ map f32_of_i16 input).
Proof.
  unfold push_each. revert q. induction input as [|x input IH]; intros q; cbn [fold_left map].
  - now rewrite app_nil_r.
  - rewrite push_samples_lastn. cbn. rewrite lastn_lastn_app, IH, <- app_assoc.
    reflexivity.
Qed.

Lemma buf_run_cap (fmt : SampleFormat) (q : VecDeque F32) (ops : list BufOp) :
  length q <= CAP ->
  length (buf_run F32 f32_of_i16 i16_of_f32 f32_zero fmt q ops) <= CAP.
Proof.
  revert q. induction ops as [|op ops IH]; intros q Hq; cbn [buf_run]; [exact Hq |].
  apply IH. destruct op as [s | n].
  - apply push_samples_length.
  - pose proof (callback_shrinks fmt q n). lia.
Qed.

(** ** C1 *)
(** C1: whatever sequence of pushes (by [push_samples] or by a relay task,
    whose per-frame body is the same push) and output-callback drains reaches
    the ring buffer, its length never exceeds [CAP] = 192,000; a push keeps
    the last [CAP] samples of old contents followed by the new ones (oldest
    evicted first); and pushing the 200,000 samples [f 1], ..., [f 200000]
    one by one into an empty buffer leaves exactly [f 8001], ..., [f 200000]
    (192,000 samples, in order). *)
Theorem ring_buffer_cap_fifo :
  (forall fmt ops,
     length (buf_run F32 f32_of_i16 i16_of_f32 f32_zero fmt [] ops) <= CAP) /\
  (forall q s, push q s = lastn CAP (q ++ map f32_of_i16 s)) /\
  (forall q frame,
     relay_frame F32 f32_of_i16 (Some q) frame = Some (push q frame)) /\
  (forall f : nat -> Z,
     push_each [] (map f (seq 1 (Z.to_nat 200000))) =
       map f32_of_i16 (map f (seq (Z.to_nat 8001) CAP)) /\
     length (push_each [] (map f (seq 1 (Z.to_nat 200000)))) = CAP).
Proof.
  pose proof CAP_Z as HC.
  assert (Hscen : forall f : nat -> Z,
     push_each [] (map f (seq 1 (Z.to_nat 200000))) =
       map f32_of_i16 (map f (seq (Z.to_nat 8001) CAP))).
  { intros f.
    replace (seq 1 (Z.to_nat 200000))
      with (seq 1 (Z.to_nat 8000) ++ seq (Z.to_nat 8001) CAP).
    2:{ assert (E1 : Z.to_nat 200000 = Z.to_nat 8000 + CAP) by lia.
        assert (E2 : Z.to_nat 8001 = 1 + Z.to_nat 8000) by lia.
        rewrite E1, E2, seq_app. reflexivity. }
    change (@nil F32) with (lastn CAP (@nil F32)).
    rewrite push_each_lastn, app_nil_l, !map_app, lastn_app_long.
    - apply lastn_small. rewrite !length_map, length_seq. lia.
    - rewrite !length_map, length_seq. lia. }
  split; [| split; [| split]].
  - intros fmt ops. apply buf_run_cap. cbn [length]. lia.
  - apply push_samples_lastn.
  - apply relay_frame_some.
  - intros f. split; [apply Hscen |].
    rewrite Hscen, !length_map, length_seq. reflexivity.
Qed.

(** ** C7 *)
(** C7: for a supported sample format, one invocation of the output callback
    over [n] slots fills them with the first [n] buffered samples (converted
    to the device format), popped in order, then with silence once the buffer
    is empty; the buffer keeps only what was not popped. *)
Theorem output_callback_pops_or_silence (fmt : SampleFormat) (n : nat)
  (q : VecDeque F32) :
  match build_output_stream F32 i16_of_f32 f32_zero fmt with
  | Some cb =>
      cb n q =
      (map (to_slot F32 i16_of_f32 fmt) (firstn n q) ++
         repeat (silence F32 f32_zero fmt) (n - length q),
       skipn n q)
  | None => True
  end.
Proof.
  destruct fmt; cbn [build_output_stream]; try exact I; rewrite fill_slots_spec;
    reflexivity.
Qed.

End Facts.

End AudioFacts.

(** ** Capture feeder *)

Module CaptureFacts.

Import Capture.

(** ** C2 *)
(** C2: for every captured batch, the frame built while muted carries
    [samples.len()] zeros, the same length and [samples_per_channel] as the
    unmuted frame for that batch, and the unmuted frame carries the batch
    unchanged; over a run of the feeder loop, each frame's data is the zero
    batch or the batch according to the flag value read for it. *)
Theorem feeder_mute_zero_fill (sr ch : Z) (samples : list Z) :
  data (feeder_frame true sr ch samples) = repeat 0%Z (length samples) /\
  length (data (feeder_frame true sr ch samples)) =
    length (data (feeder_frame false sr ch samples)) /\
  samples_per_channel (feeder_frame true sr ch samples) =
    samples_per_channel (feeder_frame false sr ch samples) /\
  data (feeder_frame false sr ch samples) = samples /\
  (forall batches : list (bool * list Z),
     map data (feeder_task sr ch batches) =
     map (fun p : bool * list Z => if fst p then repeat 0%Z (length (snd p)) else snd p)
       batches).
Proof.
  split; [reflexivity |]. split; [cbn; apply repeat_length |].
  split; [reflexivity |]. split; [reflexivity |].
  induction batches as [|[m b] rest IH]; cbn; [reflexivity |].
  rewrite IH. reflexivity.
Qed.

End CaptureFacts.

(** ** Session lifecycle *)

Module SessionFacts.

Import Session.

(** A session that reaches every step. *)
Definition env_all_ok : ConnectEnv :=
  {| room_connect_ok := true; capture_start := CapStarted; publish_ok := true;
     output_new := OutStarted |}.

Lemma connect_result_ok (env : ConnectEnv) :
  fst (connect env) = ConnectOk <->
  room_connect_ok env = true /\ capture_start env = CapStarted /\ publish_ok env = true.
Proof.
  destruct env as [r c p o]; cbn.
  destruct r, c, p; cbn; split; intros H;
    try discriminate; try (destruct H as (? & ? & ?); discriminate); auto.
Qed.

(** Closes the field-by-field goals about a concrete post-[connect] state. *)
Ltac fields_released :=
  repeat split; intros;
  first [ discriminate | reflexivity
        | match goal with H : Some _ = Some _ |- _ => injection H as <-; reflexivity end ].

(** A connect whose track publish fails after the capture has started. *)
Definition env_publish_fails : ConnectEnv :=
  {| room_connect_ok := true; capture_start := CapStarted; publish_ok := false;
     output_new := OutStarted |}.

(** ** C3 (counterexample) *)
(** C3 as stated fails: after a track-publish failure the capture thread
    has not been torn down when the error is returned.  Dropping the
    [AudioCapture] closes its kill channel, but [connect] does not join the
    thread, which is still alive at that moment. *)
Lemma connect_failure_thread_alive_cex :
  ~ (forall env, fst (connect env) = ConnectErr ->
       forall t, cap_thread (snd (connect env)) = Some t -> alive t = false).
Proof.
  intros H.
  specialize (H env_publish_fails eq_refl _ eq_refl).
  discriminate H.
Qed.

(** ** C3 (amended) *)
(** C3, amended: if the transport-room connect, the capture start or the
    track publish fails, [connect] returns an error and no playback thread
    or event task exists.  A transport-connect failure creates nothing: no
    capture thread, no room.  After a later failure the room is dropped
    without [Room::close], and every capture thread that was spawned has its
    kill channel closed (the capture handle was dropped) but is not joined;
    after the threads' next step no capture thread and no feeder is alive. *)
Theorem connect_failure_releases (env : ConnectEnv)
  (Hfail : room_connect_ok env = false \/ capture_start env <> CapStarted \/
           publish_ok env = false) :
  let st := snd (connect env) in
  fst (connect env) = ConnectErr /\
  out_thread st = None /\ event_task st = None /\
  (room_connect_ok env = false -> cap_thread st = None /\ room_conn st = RoomNotConnected) /\
  (room_connect_ok env = true -> room_conn st = RoomDropped) /\
  (forall t, cap_thread st = Some t -> kill_closed t = true) /\
  (forall t, cap_thread (settle st) = Some t -> alive t = false) /\
  feeder_alive (settle st) = false.
Proof.
  destruct env as [r c p o]; cbn in Hfail |- *.
  destruct r, c; cbn; try solve [fields_released].
  destruct p; cbn; [| fields_released].
  exfalso. destruct Hfail as [H | [H | H]]; [discriminate | congruence | discriminate].
Qed.

Lemma connect_failure_releases_witness :
  fst (connect env_publish_fails) = ConnectErr /\
  room_conn (snd (connect env_publish_fails)) = RoomDropped /\
  (forall t, cap_thread (snd (connect env_publish_fails)) = Some t -> kill_closed t = true) /\
  feeder_alive (settle (snd (connect env_publish_fails))) = false.
Proof.
  destruct (connect_failure_releases env_publish_fails (or_intror (or_intror eq_refl)))
    as (H1 & _ & _ & _ & H5 & H6 & _ & H8).
  split; [exact H1 |]. split; [apply H5; reflexivity |]. split; [exact H6 | exact H8].
Defined.

(** ** C6 *)
(** C6: when the hard-required steps succeed, a failure of [AudioOutput::new]
    (no output device, no output config, or an output-thread error) does not
    change the result: [connect] succeeds with no playback (capture only),
    the capture thread running, and the warning logged; the result of
    [connect] never depends on the output outcome. *)
Theorem connect_output_best_effort (env : ConnectEnv)
  (Hroom : room_connect_ok env = true) (Hcap : capture_start env = CapStarted)
  (Hpub : publish_ok env = true) (Hout : output_new env <> OutStarted) :
  let st := snd (connect env) in
  fst (connect env) = ConnectOk /\ has_output st = false /\
  cap_thread st = Some running_thread /\ event_task st = Some TaskRunning /\
  warnings st = ["audio output unavailable"%string] /\
  (forall o, fst (connect {| room_connect_ok := room_connect_ok env;
                             capture_start := capture_start env;
                             publish_ok := publish_ok env;
                             output_new := o |}) = fst (connect env)).
Proof.
  destruct env as [r c p o]; cbn in *; subst.
  destruct o; cbn; try congruence; repeat split; intros o'; reflexivity.
Qed.

Lemma connect_output_best_effort_witness :
  let env := {| room_connect_ok := true; capture_start := CapStarted;
                publish_ok := true; output_new := OutNoDevice |} in
  let st := snd (connect env) in
  fst (connect env) = ConnectOk /\ has_output st = false.
Proof.
  cbn zeta.
  destruct (connect_output_best_effort
              {| room_connect_ok := true; capture_start := CapStarted;
                 publish_ok := true; output_new := OutNoDevice |}
              eq_refl eq_refl eq_refl ltac:(discriminate)) as (H1 & H2 & _).
  split; [exact H1 | exact H2].
Defined.

(** ** C9 *)
(** C9: a session returned by a successful [connect] is unmuted, and after
    [set_muted b], with no other [set_muted] in between (a [disconnect] may
    intervene), [is_muted] returns [b]. *)
Theorem connect_unmuted_set_muted (env : ConnectEnv) (st : VState)
  (Hok : connect env = (ConnectOk, st)) :
  is_muted st = false /\
  (forall b s, is_muted (set_muted b s) = b) /\
  (forall b c s, is_muted (disconnect c (set_muted b s)) = b).
Proof.
  split; [| split; [intros b s; reflexivity | intros b [|] s; reflexivity]].
  destruct env as [r c p o]; unfold connect in Hok; cbn in Hok.
  destruct r, c, p; cbn in Hok; try discriminate.
  destruct o; cbn in Hok; injection Hok as <-; reflexivity.
Qed.

Lemma connect_unmuted_set_muted_witness :
  is_muted (snd (connect env_all_ok)) = false.
Proof.
  destruct (connect_unmuted_set_muted env_all_ok (snd (connect env_all_ok)) eq_refl)
    as (H & _).
  exact H.
Defined.

End SessionFacts.

(** ** Disconnect, teardown and capture-only relays *)

Module TeardownFacts.

Import Session.

(** ** C4 (counterexample) *)
(** C4 fails: [disconnect(&self)] cannot drop the capture or playback
    handle.  After [disconnect] on a freshly connected session, the capture
    thread's kill channel is still open, so the thread keeps running.  The
    handles are released only when the [VoiceSession] itself is dropped. *)
Lemma disconnect_drops_handles_cex :
  ~ (forall (c : bool) (st : VState) (t : HwThread),
       cap_thread (disconnect c st) = Some t -> kill_closed t = true).
Proof.
  intros H.
  specialize (H true (snd (connect SessionFacts.env_all_ok)) running_thread eq_refl).
  discriminate H.
Qed.

Section Relay.

Variable F32 : Type.
Variable f32_of_i16 : Z -> F32.

(** ** C10 *)
(** C10: when [AudioOutput::new] failed, the session has no playback buffer
    and the relay tasks get [None]; such a relay task consumes every frame of
    its stream and buffers nothing: its buffer stays [None]. *)
Theorem relay_without_output_drops :
  (forall env, output_new env <> OutStarted -> has_output (snd (connect env)) = false) /\
  (forall frames, Audio.relay_task F32 f32_of_i16 None frames = None).
Proof.
  split.
  - intros [r c p o] Ho; cbn in Ho |- *.
    destruct r, c, p; cbn; try reflexivity.
    destruct o; cbn; congruence.
  - induction frames as [|f frames IH]; [reflexivity |]. exact IH.
Qed.

End Relay.

Lemma relay_without_output_drops_witness :
  has_output (snd (connect {| room_connect_ok := true; capture_start := CapStarted;
                              publish_ok := true; output_new := OutNoConfig |})) = false.
Proof.
  destruct (relay_without_output_drops unit (fun _ => tt)) as [H _].
  apply H. discriminate.
Defined.

End TeardownFacts.

(** ** Room-event dispatch *)

Module DispatchFacts.

Import Dispatch.

Lemma skipn_cons_nth (A : Type) (l : list A) (h : nat) (x : A) (r : list A) :
  skipn h l = x :: r -> nth_error l h = Some x /\ skipn (S h) l = r /\ h < length l.
Proof.
  revert h; induction l as [|y l IH]; intros [|h] H; cbn in *; try discriminate.
  - injection H as -> ->. split; [reflexivity | split; [reflexivity | lia]].
  - destruct (IH h H) as (H1 & H2 & H3). split; [exact H1 | split; [exact H2 | lia]].
Qed.

Lemma dispatch_run_app (s : DState) (l : DLabel) (s1 : DState) (out1 : list VoiceEvent)
  (ls : list DLabel) (s2 : DState) (out2 outs : list VoiceEvent) :
  dstep s l s1 out1 -> dispatch_run s1 ls s2 out2 -> outs = out1 ++ out2 ->
  dispatch_run s (l :: ls) s2 outs.
Proof. intros H1 H2 ->. exact (DCons _ _ _ _ _ _ _ H1 H2). Qed.

(** The invariant of a run: the room's map is the fold of the events it
    received, the queue holds those not yet taken.  Every notification is
    sent for the next participant event in the queue, with the names of the
    map after the first [r] received events, for some [r] beyond that event:
    the map may already contain later events. *)
Lemma dispatch_run_invariant (m0 : Members) (s : DState) (ls : list DLabel)
  (s' : DState) (outs : list VoiceEvent) :
  dispatch_run s ls s' outs ->
  forall (P : list RoomEvent) (h : nat),
  members s = fold_left room_apply P m0 -> queue s = skipn h P -> h <= length P ->
  exists pts : list (nat * nat),
    Forall2 (fun o p => fst p < snd p <= length (P ++ room_events ls) /\
               exists names, o = ParticipantsUpdated names /\
                 Permutation names
                   (map snd (fold_left room_apply (firstn (snd p) (P ++ room_events ls)) m0)))
            outs pts /\
    map fst pts = filter (participant_at (P ++ room_events ls)) (seq h (handled ls)) /\
    queue s' = skipn (h + handled ls) (P ++ room_events ls) /\
    members s' = fold_left room_apply (P ++ room_events ls) m0 /\
    h + handled ls <= length (P ++ room_events ls).
Proof.
  intros Hrun.
  induction Hrun as [s | s l s1 out1 ls s2 out2 Hstep Hrest IH]; intros P h Hm Hq Hh.
  - exists []. cbn [room_events handled]. rewrite app_nil_r, Nat.add_0_r.
    split; [constructor |]. split; [reflexivity |]. auto.
  - destruct Hstep as [s ev | s ev rest out Hqe Hev]; cbn [members queue] in *.
    + assert (Hm' : room_apply (members s) ev = fold_left room_apply (P ++ [ev]) m0).
      { rewrite fold_left_app, Hm. reflexivity. }
      assert (Hq' : queue s ++ [ev] = skipn h (P ++ [ev])).
      { rewrite Hq, skipn_app. replace (h - length P) with 0 by lia. reflexivity. }
      assert (Hh' : h <= length (P ++ [ev])) by (rewrite length_app; lia).
      destruct (IH (P ++ [ev]) h Hm' Hq' Hh') as (pts & H1 & H2 & H3 & H4 & H5).
      rewrite <- app_assoc in *. cbn [app] in *.
      exists pts. cbn [room_events handled app]. auto.
    + rewrite Hq in Hqe. apply skipn_cons_nth in Hqe as (Hn & Hs & Hlt).
      destruct (IH P (S h) Hm (eq_sym Hs) ltac:(lia)) as (pts & H1 & H2 & H3 & H4 & H5).
      cbn [room_events handled].
      assert (Hat : participant_at (P ++ room_events ls) h = is_participant_event ev).
      { unfold participant_at. rewrite nth_error_app1 by lia. rewrite Hn. reflexivity. }
      assert (Hfold : fold_left room_apply (firstn (length P) (P ++ room_events ls)) m0
                      = members s).
      { rewrite firstn_app, Nat.sub_diag, firstn_O, app_nil_r, firstn_all. auto. }
      replace (h + S (handled ls)) with (S h + handled ls) by lia.
      cbn [seq filter]. rewrite Hat.
      inversion Hev as [m id nm names Hn' | m id names Hn' | m ev' Hq']; subst.
      * exists ((h, length P) :: pts).
        split; [| split; [cbn; rewrite H2; reflexivity | auto]].
        constructor; [| exact H1]. cbn [fst snd].
        split; [rewrite length_app; lia |]. rewrite Hfold. eauto.
      * exists ((h, length P) :: pts).
        split; [| split; [cbn; rewrite H2; reflexivity | auto]].
        constructor; [| exact H1]. cbn [fst snd].
        split; [rewrite length_app; lia |]. rewrite Hfold. eauto.
      * rewrite Hq'. cbn [app]. exists pts. auto.
Qed.

(** The spec's event stream (identity = display name). *)
Definition scenario : list RoomEvent :=
  [ParticipantConnected "bob" "bob"; ParticipantConnected "ana" "ana";
   ParticipantDisconnected "bob"].

Definition empty_room : DState := {| members := []; queue := [] |}.

(** The task takes each event before the room receives the next one. *)
Definition lockstep : list DLabel :=
  [LRoom (ParticipantConnected "bob" "bob"); LHandle;
   LRoom (ParticipantConnected "ana" "ana"); LHandle;
   LRoom (ParticipantDisconnected "bob"); LHandle].

(** The room receives all three events before the task takes the first. *)
Definition lagging : list DLabel :=
  [LRoom (ParticipantConnected "bob" "bob"); LRoom (ParticipantConnected "ana" "ana");
   LRoom (ParticipantDisconnected "bob"); LHandle; LHandle; LHandle].

Ltac run_steps :=
  repeat first
    [ eapply dispatch_run_app;
      [ first [ apply DRoom
              | eapply DHandle; [reflexivity | constructor; cbn; apply Permutation_refl] ]
      | | ]
    | apply DNil
    | reflexivity ].

Lemma lagging_run :
  exists s', dispatch_run empty_room lagging s'
    [ParticipantsUpdated ["ana"%string]; ParticipantsUpdated ["ana"%string];
     ParticipantsUpdated ["ana"%string]] /\ queue s' = [].
Proof. eexists; split; [unfold lagging; run_steps | reflexivity]. Qed.

Lemma lockstep_run :
  exists s', dispatch_run empty_room lockstep s'
    [ParticipantsUpdated ["bob"%string]; ParticipantsUpdated ["bob"%string; "ana"%string];
     ParticipantsUpdated ["ana"%string]] /\ queue s' = [].
Proof. eexists; split; [unfold lockstep; run_steps | reflexivity]. Qed.

(** ** C5 (counterexample) *)
(** C5 as stated fails: the task reads the room's live participant map
    when it handles an event, and the room may have applied later events
    by then.  If all three events arrive before the task takes the first,
    it sends [["ana"]] three times. *)
Lemma participants_order_cex :
  ~ (forall ls s' outs, dispatch_run empty_room ls s' outs ->
       room_events ls = scenario -> queue s' = [] ->
       outs = [ParticipantsUpdated ["bob"%string];
               ParticipantsUpdated ["bob"%string; "ana"%string];
               ParticipantsUpdated ["ana"%string]]).
Proof.
  intros H. destruct lagging_run as (s' & Hrun & Hq).
  specialize (H _ _ _ Hrun eq_refl Hq). discriminate H.
Qed.

(** ** C5 (amended) *)
(** C5, amended: once the task has handled the room events
    [Connected("bob"), Connected("ana"), Disconnected("bob")], received by
    an empty room, it has sent exactly three notifications.  Each is the
    full name list of the participant map at the moment the task handles
    the event, in the map's unspecified order: the first is [bob], [bob]
    and [ana], or [ana]; the second is [bob] and [ana], or [ana]; the third
    is [ana].  When the task takes each event before the next arrives, the
    notifications are [["bob"]], [bob] and [ana], [["ana"]]. *)
Theorem participants_recomputed (ls : list DLabel) (s' : DState) (outs : list VoiceEvent)
  (Hrun : dispatch_run empty_room ls s' outs)
  (Hevs : room_events ls = scenario) (Hdone : queue s' = []) :
  (exists n1 n2,
     outs = [ParticipantsUpdated n1; ParticipantsUpdated n2;
             ParticipantsUpdated ["ana"%string]] /\
     (Permutation n1 ["bob"%string] \/ Permutation n1 ["bob"%string; "ana"%string] \/
      Permutation n1 ["ana"%string]) /\
     (Permutation n2 ["bob"%string; "ana"%string] \/ Permutation n2 ["ana"%string])) /\
  (ls = lockstep ->
     exists n2, outs = [ParticipantsUpdated ["bob"%string]; ParticipantsUpdated n2;
                        ParticipantsUpdated ["ana"%string]] /\
                Permutation n2 ["bob"%string; "ana"%string]).
Proof.
  split.
  - destruct (dispatch_run_invariant [] _ _ _ _ Hrun [] 0 eq_refl eq_refl (le_n 0))
      as (pts & H1 & H2 & H3 & _ & H5).
    cbn [app] in *. rewrite Hevs in *. rewrite Hdone in H3. cbn [plus] in *.
    assert (Hk : handled ls = 3).
    { cbn [length scenario] in H5.
      destruct (handled ls) as [|[|[|[|k]]]]; cbn in H3; try discriminate; lia. }
    rewrite Hk in H2. cbn in H2.
    destruct pts as [|[i1 r1] [|[i2 r2] [|[i3 r3] [|]]]]; try discriminate.
    cbn in H2. injection H2 as -> -> ->.
    inversion H1 as [|o1 p1 outs1 p1s (Hr1 & nm1 & -> & Hp1) H1']; subst.
    inversion H1' as [|o2 p2 outs2 p2s (Hr2 & nm2 & -> & Hp2) H2']; subst.
    inversion H2' as [|o3 p3 outs3 p3s (Hr3 & nm3 & -> & Hp3) H3']; subst.
    inversion H3'; subst. cbn [fst snd length scenario] in *.
    assert (r3 = 3) as -> by lia. cbn in Hp3.
    apply Permutation_sym, Permutation_length_1_inv in Hp3 as ->.
    exists nm1, nm2. split; [reflexivity |].
    split.
    + destruct r1 as [|[|[|[|r1]]]]; try lia; cbn in Hp1; auto.
    + destruct r2 as [|[|[|[|r2]]]]; try lia; cbn in Hp2; auto.
  - intros ->. unfold lockstep in Hrun.
    inversion Hrun as [| ? ? s1 o1 ? ? o1' St1 R1]; subst; clear Hrun.
    inversion St1; subst; clear St1.
    inversion R1 as [| ? ? s2 o2 ? ? o2' St2 R2]; subst; clear R1.
    inversion St2 as [| ? ev2 rest2 out2 Hq2 Hh2]; subst; clear St2.
    cbn in Hq2. injection Hq2 as <- <-.
    inversion Hh2 as [? ? ? n1 Hn1 | | ]; subst; clear Hh2.
    2: match goal with H : is_participant_event _ = false |- _ => discriminate H end.
    inversion R2 as [| ? ? s3 o3 ? ? o3' St3 R3]; subst; clear R2.
    inversion St3; subst; clear St3.
    inversion R3 as [| ? ? s4 o4 ? ? o4' St4 R4]; subst; clear R3.
    inversion St4 as [| ? ev4 rest4 out4 Hq4 Hh4]; subst; clear St4.
    cbn in Hq4. injection Hq4 as <- <-.
    inversion Hh4 as [? ? ? n2 Hn2 | | ]; subst; clear Hh4.
    2: match goal with H : is_participant_event _ = false |- _ => discriminate H end.
    inversion R4 as [| ? ? s5 o5 ? ? o5' St5 R5]; subst; clear R4.
    inversion St5; subst; clear St5.
    inversion R5 as [| ? ? s6 o6 ? ? o6' St6 R6]; subst; clear R5.
    inversion St6 as [| ? ev6 rest6 out6 Hq6 Hh6]; subst; clear St6.
    cbn in Hq6. injection Hq6 as <- <-.
    inversion Hh6 as [| ? ? n3 Hn3 | ]; subst; clear Hh6.
    2: match goal with H : is_participant_event _ = false |- _ => discriminate H end.
    inversion R6; subst; clear R6.
    unfold participant_names in *. cbn in Hn1, Hn2, Hn3.
    apply Permutation_sym, Permutation_length_1_inv in Hn1 as ->.
    apply Permutation_sym, Permutation_length_1_inv in Hn3 as ->.
    exists n2. split; [reflexivity | exact Hn2].
Qed.

Lemma participants_recomputed_witness :
  exists s', dispatch_run empty_room lockstep s'
    [ParticipantsUpdated ["bob"%string]; ParticipantsUpdated ["bob"%string; "ana"%string];
     ParticipantsUpdated ["ana"%string]] /\
  exists n2,
    [ParticipantsUpdated ["bob"%string]; ParticipantsUpdated ["bob"%string; "ana"%string];
     ParticipantsUpdated ["ana"%string]] =
    [ParticipantsUpdated ["bob"%string]; ParticipantsUpdated n2;
     ParticipantsUpdated ["ana"%string]] /\
    Permutation n2 ["bob"%string; "ana"%string].
Proof.
  destruct lockstep_run as (s' & Hrun & Hq).
  exists s'. split; [exact Hrun |].
  exact (proj2 (participants_recomputed lockstep s' _ Hrun eq_refl Hq) eq_refl).
Defined.

End DispatchFacts.

(** ** Voice-join signalling *)

Module BridgeFacts.

Import Session Bridge.

Lemma sent_ids_app (a b : list Action) : sent_ids (a ++ b) = sent_ids a ++ sent_ids b.
Proof.
  induction a as [|x a IH]; [reflexivity |].
  destruct x; cbn; rewrite ?IH; reflexivity.
Qed.

(** A [JoinVoice] as [matrix_task] can run it: commands are only taken
    after a successful login, which leaves a Matrix session, and the room
    ids come from the joined-room list, so they parse and name a known
    room. *)
Definition join_reachable (env : JoinEnv) : bool :=
  has_matrix_session env && room_id_parses env && room_known env.

Section Join.

Variable uuid_gen : nat -> string.

(** The actions of a reachable [JoinVoice]. *)
Lemma join_voice_reachable (env : JoinEnv) (room_id : string) (h : Handler) :
  join_reachable env = true ->
  draws (fst (join_voice uuid_gen env room_id h)) = S (draws h) /\
  exists post,
    snd (join_voice uuid_gen env room_id h) =
      (match voice h with Some _ => [DisconnectOld] | None => [] end) ++
      SendJoin (uuid_gen (draws h)) ::
      (if join_send_ok env then [] else [Warn]) ++ SidecarRequest :: post /\
    sent_ids post = [] /\ ~ In SidecarRequest post /\
    (sidecar env = SidecarOk -> In MediaConnect post).
Proof.
  unfold join_reachable, join_voice, teardown_old.
  destruct env as [hs rp rk js sc ce oc]; cbn.
  intros H. destruct hs, rp, rk; try discriminate H; cbn.
  destruct (voice h); cbn;
    destruct sc; cbn; try destruct (connect ce) as [[|] st]; cbn;
    (split; [reflexivity |]);
    (eexists; split;
     [ rewrite <- ?app_assoc; destruct js; cbn; reflexivity
     | cbn; repeat split; intros; try reflexivity; intuition (try discriminate) ]).
Qed.

Lemma join_many_reachable (envs : list (JoinEnv * string)) (h : Handler) :
  Forall (fun e => join_reachable (fst e) = true) envs ->
  concat (map sent_ids (snd (join_many uuid_gen envs h))) =
    map uuid_gen (seq (draws h) (length envs)).
Proof.
  revert h. induction envs as [|[e r] envs IH]; intros h Hall; [reflexivity |].
  inversion Hall as [| ? ? He Hrest]; subst; cbn in He.
  destruct (join_voice_reachable e r h He) as (Hd & post & Hacts & Hpost & _).
  cbn [join_many]. destruct (join_voice uuid_gen e r h) as [h1 a] eqn:Ej.
  cbn in Hd, Hacts. specialize (IH h1 Hrest).
  destruct (join_many uuid_gen envs h1) as [h2 as_] eqn:Em. cbn in IH |- *.
  rewrite IH, Hd, Hacts, !sent_ids_app. cbn [sent_ids].
  destruct (voice h), (join_send_ok e); cbn; rewrite Hpost; reflexivity.
Qed.

End Join.

(** A handler with no session, no voice room and no draw yet. *)
Definition empty_handler : Handler :=
  {| voice := None; voice_room_id := None; dropped := []; draws := 0 |}.

(** ** C8 *)
(** C8: on every [JoinVoice] that [matrix_task] can run (a Matrix session
    exists, the room id parses and names a joined room), a
    [Join{session_id}] message is sent, after tearing down an old session
    and before the sidecar token request and the media connect, with
    [session_id] the next [Uuid::new_v4()] draw; a failed send is only
    logged (a warning) and the join goes on to the sidecar and, when the
    sidecar answers, to the media connect.  Over any sequence of reachable
    [JoinVoice] commands (reconnects included), the ids sent are those of
    consecutive draws, one per command, never the same draw twice. *)
Theorem join_voice_signals (gen : nat -> string) :
  (forall env room_id h,
     join_reachable env = true ->
     draws (fst (join_voice gen env room_id h)) = S (draws h) /\
     exists post,
       snd (join_voice gen env room_id h) =
         (match voice h with Some _ => [DisconnectOld] | None => [] end) ++
         SendJoin (gen (draws h)) ::
         (if join_send_ok env then [] else [Warn]) ++ SidecarRequest :: post /\
       sent_ids post = [] /\
       (sidecar env = SidecarOk -> In MediaConnect post)) /\
  (forall envs h,
     Forall (fun e => join_reachable (fst e) = true) envs ->
     exists ks,
       concat (map sent_ids (snd (join_many gen envs h))) = map gen ks /\
       ks = seq (draws h) (length envs) /\ NoDup ks /\ length ks = length envs).
Proof.
  split.
  - intros env room_id h He.
    destruct (join_voice_reachable gen env room_id h He) as (Hd & post & H1 & H2 & _ & H4).
    split; [exact Hd |]. exists post. auto.
  - intros envs h Hall. exists (seq (draws h) (length envs)).
    split; [exact (join_many_reachable gen envs h Hall) |].
    split; [reflexivity |]. split; [apply seq_NoDup | apply length_seq].
Qed.

(** A reachable join whose [Join] send fails. *)
Definition env_send_fails : JoinEnv :=
  {| has_matrix_session := true; room_id_parses := true; room_known := true;
     join_send_ok := false; sidecar := SidecarOk;
     connect_env := SessionFacts.env_all_ok; old_close_ok := true |}.

Lemma join_voice_signals_witness :
  join_reachable env_send_fails = true /\
  exists post,
    snd (join_voice (fun _ => "id"%string) env_send_fails "!r:spoke"%string empty_handler) =
      [] ++ SendJoin "id"%string :: [Warn] ++ SidecarRequest :: post /\
    sent_ids post = [] /\ In MediaConnect post.
Proof.
  split; [reflexivity |].
  destruct (join_voice_signals (fun _ => "id"%string)) as [H _].
  destruct (H env_send_fails "!r:spoke"%string empty_handler eq_refl)
    as (_ & post & H1 & H2 & H3).
  exists post. split; [exact H1 | split; [exact H2 | exact (H3 eq_refl)]].
Defined.

End BridgeFacts.

(* ========================================================================= *)
(** * Further properties of the code *)

(** ** Ring buffer and output callback *)

Module AudioExtra.

Import Audio AudioFacts.

Local Opaque CAP.

Lemma firstn_add {A} (n m : nat) (l : list A) :
  firstn (n + m) l = firstn n l ++ firstn m (skipn n l).
Proof.
  revert l. induction n as [|n IH]; intros l; [reflexivity |].
  destruct l as [|x l]; cbn; [now rewrite firstn_nil |]. now rewrite IH.
Qed.

Lemma skipn_add {A} (n m : nat) (l : list A) : skipn (n + m) l = skipn m (skipn n l).
Proof.
  revert l. induction n as [|n IH]; intros l; [reflexivity |].
  destruct l as [|x l]; cbn; [now rewrite skipn_nil | apply IH].
Qed.

Section Extra.

Variable F32 : Type.
Variable f32_of_i16 : Z -> F32.
Variable i16_of_f32 : F32 -> Z.
Variable f32_zero : F32.

Local Abbreviation push := (push_samples F32 f32_of_i16).

(** Pushing one batch and then another leaves the buffer exactly as pushing
    their concatenation in one call: how samples are split into frames does
    not matter. *)
Theorem push_samples_compose (q : VecDeque F32) (a b : list Z) :
  push (push q a) b = push q (a ++ b).
Proof.
  rewrite !push_samples_lastn, lastn_lastn_app, map_app, app_assoc. reflexivity.
Qed.

(** While the buffer plus the new batch fit under the cap, nothing is
    evicted: the batch is appended after the buffered samples. *)
Theorem push_samples_no_eviction (q : VecDeque F32) (s : list Z)
  (Hfit : length q + length s <= CAP) :
  push q s = q ++ map f32_of_i16 s.
Proof.
  rewrite push_samples_lastn. apply lastn_small.
  rewrite length_app, length_map. exact Hfit.
Qed.

Lemma fill_slots_compose {T} (conv : F32 -> T) (zero : T) (n m : nat) (q : VecDeque F32) :
  let '(o1, q1) := fill_slots F32 conv zero n q in
  let '(o2, q2) := fill_slots F32 conv zero m q1 in
  fill_slots F32 conv zero (n + m) q = (o1 ++ o2, q2).
Proof.
  rewrite !fill_slots_spec. cbn.
  rewrite firstn_add, skipn_add, map_app, length_skipn, <- !app_assoc.
  f_equal. f_equal.
  destruct (Nat.le_gt_cases (length q) n) as [Hle | Hgt].
  - rewrite (skipn_all2 q Hle), firstn_nil. cbn.
    replace (m - (length q - n)) with m by lia.
    replace (n + m - length q) with ((n - length q) + m) by lia.
    now rewrite repeat_app.
  - replace (n - length q) with 0 by lia. cbn. f_equal. f_equal. lia.
Qed.

(** Two consecutive invocations of the output callback over [n] then [m]
    slots produce the same slots, and leave the same buffer, as one
    invocation over [n + m] slots. *)
Theorem output_callback_compose (fmt : SampleFormat) (n m : nat) (q : VecDeque F32) :
  match build_output_stream F32 i16_of_f32 f32_zero fmt with
  | Some cb =>
      fst (cb n q) ++ fst (cb m (snd (cb n q))) = fst (cb (n + m) q) /\
      snd (cb m (snd (cb n q))) = snd (cb (n + m) q)
  | None => True
  end.
Proof.
  destruct fmt; cbn [build_output_stream]; try exact I;
  match goal with |- context [fill_slots F32 ?c ?z] =>
    pose proof (fill_slots_compose c z n m q) as H end;
  destruct (fill_slots F32 _ _ n q) as [o1 q1]; cbn [fst snd];
  destruct (fill_slots F32 _ _ m q1) as [o2 q2]; cbn [fst snd];
  rewrite H; split; reflexivity.
Qed.

End Extra.

Lemma push_samples_no_eviction_witness :
  push_samples unit (fun _ => tt) [] [1%Z; 2%Z] = [tt; tt].
Proof.
  pose proof CAP_Z.
  apply (push_samples_no_eviction unit (fun _ => tt) [] [1%Z; 2%Z]). cbn [length]. lia.
Defined.

End AudioExtra.

(** ** Capture hand-off channel *)

Module HandOffFacts.

Import HandOff.

Lemma subseq_snoc {A} (l1 l2 : list A) (b : A) :
  subseq l1 l2 -> subseq (l1 ++ [b]) (l2 ++ [b]).
Proof.
  induction 1; cbn.
  - apply subseq_take, subseq_nil.
  - now apply subseq_take.
  - now apply subseq_skip.
Qed.

Lemma subseq_snoc_skip {A} (l1 l2 : list A) (b : A) :
  subseq l1 l2 -> subseq l1 (l2 ++ [b]).
Proof.
  induction 1; cbn.
  - apply subseq_skip, subseq_nil.
  - now apply subseq_take.
  - now apply subseq_skip.
Qed.

Lemma hrun_invariant (ops : list HOp) (pending delivered C : list (list Z)) :
  length pending <= SYNC_CAP ->
  subseq (delivered ++ pending) C ->
  let '(p', d') := hrun (pending, delivered) ops in
  length p' <= SYNC_CAP /\ subseq (d' ++ p') (C ++ captured ops).
Proof.
  revert pending delivered C.
  induction ops as [|op ops IH]; intros p d C Hlen Hsub; cbn [hrun captured].
  - rewrite app_nil_r. split; assumption.
  - destruct op as [b |]; cbn [hstep].
    + unfold try_send. destruct (Nat.ltb_spec (length p) SYNC_CAP) as [Hlt | Hge].
      * pose proof (IH (p ++ [b]) d (C ++ [b])) as H.
        rewrite <- app_assoc in H. apply H.
        -- rewrite length_app. cbn. lia.
        -- rewrite app_assoc. now apply subseq_snoc.
      * pose proof (IH p d (C ++ [b])) as H. rewrite <- app_assoc in H.
        apply H; [exact Hlen | now apply subseq_snoc_skip].
    + destruct p as [|b p].
      * apply IH; assumption.
      * apply IH; [cbn in Hlen; lia |]. now rewrite <- app_assoc.
Qed.

(** The capture hand-off never holds more than 8 pending batches, and the
    batches handed to the feeder followed by those still pending are the
    captured batches in capture order with some left out: batches may be
    dropped, never duplicated or reordered. *)
Theorem handoff_bounded_in_order (ops : list HOp) :
  let '(pending, delivered) := hrun ([], []) ops in
  length pending <= SYNC_CAP /\ subseq (delivered ++ pending) (captured ops).
Proof.
  apply (hrun_invariant ops [] [] []); [cbn; unfold SYNC_CAP; lia | constructor].
Qed.

Lemma firstn_firstn_app {A} (k : nat) (l m : list A) :
  firstn k (firstn k l ++ m) = firstn k (l ++ m).
Proof.
  revert l. induction k as [|k IH]; intros l; [reflexivity |].
  destruct l as [|x l]; cbn; [reflexivity |]. now rewrite IH.
Qed.

Lemma hrun_no_recv (ops : list HOp) (pending : list (list Z)) (d : list (list Z)) :
  Forall (fun op => op <> HRecv) ops ->
  length pending <= SYNC_CAP ->
  fst (hrun (pending, d) ops) = firstn SYNC_CAP (pending ++ captured ops).
Proof.
  revert pending. induction ops as [|op ops IH]; intros p Hall Hlen; cbn [hrun captured].
  - rewrite app_nil_r. symmetry. apply firstn_all2. exact Hlen.
  - inversion Hall as [| ? ? Hop Hrest]; subst.
    destruct op as [b |]; [| congruence]. cbn [hstep].
    assert (Hts : try_send p b = firstn SYNC_CAP (p ++ [b])).
    { unfold try_send. destruct (Nat.ltb_spec (length p) SYNC_CAP).
      - symmetry. apply firstn_all2. rewrite length_app. cbn. lia.
      - rewrite firstn_app, firstn_all2 by lia.
        replace (SYNC_CAP - length p) with 0 by lia. now rewrite app_nil_r. }
    rewrite IH; [| exact Hrest |].
    + rewrite Hts, firstn_firstn_app, <- app_assoc. reflexivity.
    + unfold try_send. destruct (Nat.ltb_spec (length p) SYNC_CAP);
        rewrite ?length_app; cbn; lia.
Qed.

(** While the feeder does not receive, the channel keeps the first 8
    captured batches and every later batch is dropped (the newest audio is
    lost, unlike the playback buffer, which evicts the oldest). *)
Theorem handoff_drops_newest (ops : list HOp)
  (Hstalled : Forall (fun op => op <> HRecv) ops) :
  fst (hrun ([], []) ops) = firstn SYNC_CAP (captured ops).
Proof.
  apply (hrun_no_recv ops [] [] Hstalled). cbn. unfold SYNC_CAP. lia.
Qed.

Lemma handoff_drops_newest_witness :
  fst (hrun ([], []) (map HCapture [[1%Z]; [2%Z]; [3%Z]; [4%Z]; [5%Z]; [6%Z]; [7%Z];
                                    [8%Z]; [9%Z]])) =
  [[1%Z]; [2%Z]; [3%Z]; [4%Z]; [5%Z]; [6%Z]; [7%Z]; [8%Z]].
Proof.
  apply (handoff_drops_newest
           (map HCapture [[1%Z]; [2%Z]; [3%Z]; [4%Z]; [5%Z]; [6%Z]; [7%Z]; [8%Z]; [9%Z]])).
  repeat constructor; discriminate.
Defined.

End HandOffFacts.

(** ** Dispatch over any event stream *)

Module DispatchExtra.

Import Dispatch.

(** Over any run of the dispatch task on a room with participant map [m0]
    and no queued event, receiving the events [R], the task sends one
    [ParticipantsUpdated] for each participant-connected or -disconnected
    event it has taken, in order, and nothing for the others (renames
    included).  The one for the [i]-th event carries the names of the map
    after the first [r] events of [R], for some [r] with [i < r]: the map the
    task reads is the live one and may already reflect later events.  The
    room's map is the fold of [R] and the queue holds the events not yet
    taken. *)
Theorem dispatch_snapshots (m0 : Members) (ls : list DLabel) (s' : DState)
  (outs : list VoiceEvent)
  (Hrun : dispatch_run {| members := m0; queue := [] |} ls s' outs) :
  let R := room_events ls in
  exists pts : list (nat * nat),
    Forall2 (fun o p => fst p < snd p <= length R /\
               exists names, o = ParticipantsUpdated names /\
                 Permutation names (map snd (fold_left room_apply (firstn (snd p) R) m0)))
            outs pts /\
    map fst pts = filter (participant_at R) (seq 0 (handled ls)) /\
    queue s' = skipn (handled ls) R /\
    members s' = fold_left room_apply R m0.
Proof.
  cbn zeta.
  destruct (DispatchFacts.dispatch_run_invariant m0 _ _ _ _ Hrun [] 0 eq_refl eq_refl (le_n 0))
    as (pts & H1 & H2 & H3 & H4 & _).
  exists pts. cbn [app plus] in *. auto.
Qed.

Lemma dispatch_snapshots_witness :
  exists s', dispatch_run DispatchFacts.empty_room DispatchFacts.lagging s'
    [ParticipantsUpdated ["ana"%string]; ParticipantsUpdated ["ana"%string];
     ParticipantsUpdated ["ana"%string]] /\
  members s' = fold_left room_apply (room_events DispatchFacts.lagging) [].
Proof.
  destruct DispatchFacts.lagging_run as (s' & Hrun & _).
  exists s'. split; [exact Hrun |].
  destruct (dispatch_snapshots [] _ _ _ Hrun) as (_ & _ & _ & _ & H).
  exact H.
Defined.

End DispatchExtra.

(** ** Voice commands of the bridge *)

Module BridgeExtra.

Import Session Bridge VoiceCommands.

Lemma last_app_ne {A} (l m : list A) (d : A) :
  m <> [] -> last (l ++ m) d = last m d.
Proof.
  intros Hm. induction l as [|x l IH]; [reflexivity |].
  cbn [app last]. rewrite IH. destruct (l ++ m) eqn:E; [| reflexivity].
  apply app_eq_nil in E. destruct E; contradiction.
Qed.

Section Cmds.

Variable uuid_gen : nat -> string.

(** [JoinVoice] always tears down the session it finds first: the old
    session, disconnected and dropped, is the next entry of the torn-down
    list, and the first action is its disconnection. *)
Theorem join_voice_tears_down_old (env : JoinEnv) (room_id : string) (h : Handler) :
  let '(h', acts) := join_voice uuid_gen env room_id h in
  exists rest,
    dropped h' = dropped h ++
      match voice h with
      | Some old => [drop_session (disconnect (old_close_ok env) old)]
      | None => []
      end ++ rest /\
    (voice h <> None -> hd_error acts = Some DisconnectOld).
Proof.
  unfold join_voice, teardown_old.
  destruct (voice h) as [old |]; cbn [voice dropped voice_room_id draws];
  (destruct (has_matrix_session env);
   [destruct (sidecar env); [destruct (connect (connect_env env)) as [[|] st] |..] |]);
  cbn [dropped];
  first [ exists []; rewrite ?app_nil_r; split; [reflexivity | cbn; congruence]
        | exists [st]; rewrite ?app_nil_r, <- ?app_assoc;
          split; [reflexivity | cbn; congruence] ].
Qed.

(** After [JoinVoice { room_id }] the handler holds a session exactly when
    there is a Matrix session, the sidecar answered and [connect]
    succeeded, and it is the session [connect] returned; then [voice_room_id]
    is [Some room_id] and the last action is the [VoiceJoined] event.
    Otherwise no session is held, the last action is an error event, and
    [voice_room_id] is left as it was (the room of a torn-down session
    stays recorded). *)
Theorem join_voice_outcome (env : JoinEnv) (room_id : string) (h : Handler) :
  let '(h', acts) := join_voice uuid_gen env room_id h in
  (forall st, voice h' = Some st <->
     has_matrix_session env = true /\ sidecar env = SidecarOk /\
     connect (connect_env env) = (ConnectOk, st)) /\
  (voice h' <> None ->
     voice_room_id h' = Some room_id /\ last acts Warn = EmitVoiceJoined) /\
  (voice h' = None ->
     voice_room_id h' = voice_room_id h /\ last acts Warn = EmitError).
Proof.
  unfold join_voice, teardown_old.
  destruct (voice h) as [old |] eqn:Ev; cbn [voice dropped voice_room_id draws];
  (destruct (has_matrix_session env) eqn:Es;
   [destruct (sidecar env) eqn:Esc;
    [destruct (connect (connect_env env)) as [[|] st0] eqn:Ec |..] |]);
  cbv beta iota delta [negb]; cbn [voice voice_room_id];
  rewrite ?last_app_ne by discriminate; cbn [last];
  (split; [intros st; split; [intros Hs | intros [H1 [H2 H3]]] |
           split; intros Hv]);
  solve [ repeat split; congruence ].
Qed.

End Cmds.

(** [LeaveVoice] always ends with no session and no [voice_room_id], the
    old session disconnected and dropped, and always emits [VoiceLeft] last.
    The leave message is sent to a room [r] exactly when [voice_room_id] was
    [Some r] and [r] parses and names a known room; it is sent at most
    once. *)
Theorem leave_voice_spec (close_ok : bool) (lk : RoomLookup) (h : Handler) :
  let '(h', sigs) := leave_voice_cmd close_ok lk h in
  voice h' = None /\ voice_room_id h' = None /\
  dropped h' = dropped h ++
    match voice h with
    | Some old => [drop_session (disconnect close_ok old)]
    | None => []
    end /\
  last sigs (SigLeave ""%string) = SigVoiceLeft /\
  (forall r, In (SigLeave r) sigs <->
     voice_room_id h = Some r /\ lookup_parses lk r = true /\ lookup_known lk r = true) /\
  length sigs <= 2.
Proof.
  unfold leave_voice_cmd, leave_voice, teardown_old.
  destruct (voice h) eqn:Ev; cbn [voice dropped voice_room_id];
  cbv beta iota;
  (split; [cbn; solve [reflexivity | assumption] |]); (split; [reflexivity |]);
  (split; [cbn; rewrite ?app_nil_r; reflexivity |]); (split; [apply last_last |]);
  unfold send_to_voice_room;
  destruct (voice_room_id h) as [r0 |];
  try (destruct (lookup_parses lk r0) eqn:Ep, (lookup_known lk r0) eqn:Ek); cbn;
  (split; [| lia]); intros r; split;
  first [ intros [H | [H | []]]; [injection H as <-; auto | discriminate]
        | intros [H | []]; discriminate
        | intros (H & H1 & H2); injection H as <-; try congruence; auto
        | intros (H & _); discriminate ].
Qed.

(** [MuteVoice] without a session does nothing and sends nothing.  With a
    session it changes only the session's mute flag, to the requested value,
    and sends the mute message with that value to [r] exactly when
    [voice_room_id] is [Some r] and [r] resolves to a known room. *)
Theorem mute_voice_spec (b : bool) (lk : RoomLookup) (h : Handler) :
  let '(h', sigs) := mute_voice_cmd b lk h in
  match voice h with
  | None => h' = h /\ sigs = []
  | Some st =>
      (exists st', voice h' = Some st' /\ is_muted st' = b /\
                   set_muted (is_muted st) st' = st) /\
      voice_room_id h' = voice_room_id h /\ dropped h' = dropped h /\
      draws h' = draws h /\
      sigs = match voice_room_id h with
             | Some r => if lookup_parses lk r && lookup_known lk r
                         then [SigMute r b] else []
             | None => []
             end
  end.
Proof.
  unfold mute_voice_cmd. destruct (voice h) as [st |]; [| split; reflexivity].
  cbn [voice voice_room_id dropped draws]. repeat split.
  exists (set_muted b st). repeat split. destruct st; reflexivity.
Qed.

(** After [LeaveVoice], a [MuteVoice] is a no-op: no session is left whose
    flag could change, and no mute message is sent. *)
Theorem mute_after_leave_noop (close_ok b : bool) (lk lk' : RoomLookup) (h : Handler) :
  let h' := fst (leave_voice_cmd close_ok lk h) in
  mute_voice_cmd b lk' h' = (h', []).
Proof.
  unfold leave_voice_cmd, leave_voice, teardown_old, mute_voice_cmd.
  destruct (voice h) eqn:Ev; cbn [fst voice]; [reflexivity |]. now rewrite Ev.
Qed.

End BridgeExtra.

(** ** The app's room selection and voice state *)

Module UiFacts.

Import Ui.

Lemma position_lt (r : string) (rs : list RoomInfo) (i : nat) :
  position r rs = Some i -> i < length rs.
Proof.
  revert i. induction rs as [|x rs IH]; intros i H; cbn in H; [discriminate |].
  destruct (String.eqb (fst x) r).
  - inversion H; subst. cbn. lia.
  - destruct (position r rs) as [j |] eqn:E; cbn in H; [| discriminate].
    inversion H; subst. specialize (IH j eq_refl). cbn. lia.
Qed.

(** After [RoomsUpdated(rs)] a room is selected exactly when [rs] is not
    empty, the selection is an entry of [rs], and a selection still in range
    of the new list is kept. *)
Theorem rooms_updated_selection (rs : list RoomInfo) (u : UiState) :
  let u' := rooms_updated rs u in
  rooms u' = rs /\
  (selected_room u' = None <-> rs = []) /\
  selection_valid u' /\
  (forall i, selected_room u = Some i -> i < length rs -> selected_room u' = Some i).
Proof.
  unfold rooms_updated, selection_valid; cbn [rooms selected_room].
  destruct (selected_room u) as [i |] eqn:Es;
  [destruct (Nat.leb_spec (length rs) i) as [Hge | Hlt] |];
  destruct rs as [|r rs]; cbn in *;
  repeat split; intros;
  repeat match goal with H : Some _ = Some _ |- _ => inversion H; subst; clear H end;
  try congruence; try lia; tauto.
Qed.

Lemma step_selection_valid (u : UiState) (inp : UiInput) :
  selection_valid u -> selection_valid (fst (ui_step u inp)).
Proof.
  intros Hv. unfold ui_step.
  destruct inp as [rs | r | r | | ps | i | | | | ]; cbn [fst].
  - apply (rooms_updated_selection rs u).
  - destruct (position r (rooms u)) as [i |] eqn:E; [| exact Hv].
    unfold selection_valid; cbn. exact (position_lt r _ i E).
  - exact Hv.
  - exact Hv.
  - exact Hv.
  - destruct (Nat.ltb_spec i (length (rooms u))); [| exact Hv].
    unfold selection_valid; cbn. assumption.
  - destruct (selected_room u); [| exact Hv].
    destruct (current_room_id u); [| exact Hv]. exact I.
  - destruct (_ && _); exact Hv.
  - destruct (_ && _); [| exact Hv]. exact Hv.
  - destruct (_ && _ && _); [destruct (current_room_id u) |]; exact Hv.
Qed.

Lemma run_selection_valid (u : UiState) (inps : list UiInput) :
  selection_valid u -> selection_valid (fst (ui_run u inps)).
Proof.
  revert u. induction inps as [|inp inps IH]; intros u Hv; [exact Hv |].
  cbn [ui_run]. destruct (ui_step u inp) as [u1 c1] eqn:E1.
  destruct (ui_run u1 inps) as [u2 c2] eqn:E2. cbn [fst].
  replace u2 with (fst (ui_run u1 inps)) by (rewrite E2; reflexivity).
  apply IH. replace u1 with (fst (ui_step u inp)) by (rewrite E1; reflexivity).
  now apply step_selection_valid.
Qed.

(** Whatever events and clicks the app goes through from its initial state,
    a selected room is always an entry of the room list; so whenever the
    header buttons are shown, the current room and its id are defined. *)
Theorem selection_always_valid (inps : list UiInput) :
  let u := fst (ui_run ui_init inps) in
  selection_valid u /\
  (selected_room u <> None -> exists r, current_room_id u = Some r).
Proof.
  cbv zeta. pose proof (run_selection_valid ui_init inps I) as Hv.
  split; [exact Hv |]. intros Hs. unfold current_room_id.
  unfold selection_valid in Hv.
  destruct (selected_room (fst (ui_run ui_init inps))) as [i |]; [| congruence].
  destruct (nth_error (rooms (fst (ui_run ui_init inps))) i) as [[id nm] |] eqn:E.
  - exists id. reflexivity.
  - apply nth_error_None in E. lia.
Qed.

Lemma step_voice_fields (u : UiState) (inp : UiInput) :
  voice_fields_agree u -> voice_fields_agree (fst (ui_step u inp)).
Proof.
  unfold voice_fields_agree, ui_step. intros [Hiv Hm].
  destruct inp as [rs | r | r | | ps | i | | | | ]; cbn [fst].
  - cbn. split; assumption.
  - destruct (position r (rooms u)); cbn; split; assumption.
  - cbn. split; [split; congruence | intros H; reflexivity].
  - cbn. split; [split; congruence | discriminate].
  - cbn. split; assumption.
  - destruct (_ <? _); cbn; split; assumption.
  - destruct (selected_room u); [destruct (current_room_id u) |]; cbn; split; assumption.
  - destruct (_ && _); cbn; split; assumption.
  - destruct (_ && _) eqn:Eb; cbn; [| split; assumption].
    repeat match goal with H : (_ && _) = true |- _ => apply andb_prop in H as [? ?] end.
    split; [assumption | intros _; assumption].
  - destruct (_ && _ && _); [destruct (current_room_id u) |]; cbn; split; assumption.
Qed.

(** From the initial state, whatever happens, a voice room is recorded
    exactly while the app is in voice, and the mute flag is never left set
    outside a voice session ([VoiceLeft] clears it). *)
Theorem voice_fields_always_agree (inps : list UiInput) :
  voice_fields_agree (fst (ui_run ui_init inps)).
Proof.
  assert (H0 : voice_fields_agree ui_init).
  { unfold voice_fields_agree; cbn. split; [split; congruence | discriminate]. }
  revert H0. generalize ui_init as u.
  induction inps as [|inp inps IH]; intros u Hv; [exact Hv |].
  cbn [ui_run]. destruct (ui_step u inp) as [u1 c1] eqn:E1.
  destruct (ui_run u1 inps) as [u2 c2] eqn:E2. cbn [fst].
  replace u2 with (fst (ui_run u1 inps)) by (rewrite E2; reflexivity).
  apply IH. replace u1 with (fst (ui_step u inp)) by (rewrite E1; reflexivity).
  now apply step_voice_fields.
Qed.

(** The header sends [JoinVoice] only while not in voice, and for the
    selected room; it sends [LeaveVoice] and [MuteVoice] only while in voice
    in the selected room, the mute command carrying the toggled flag, which
    the app records. *)
Theorem ui_voice_commands_guarded (u : UiState) (inp : UiInput) :
  let '(u', cmds) := ui_step u inp in
  (forall r, In (CmdJoinVoice r) cmds ->
     in_voice u = false /\ current_room_id u = Some r) /\
  (In CmdLeaveVoice cmds ->
     in_voice u = true /\ opt_string_eqb (voice_room_id u) (current_room_id u) = true) /\
  (forall m, In (CmdMuteVoice m) cmds ->
     in_voice u = true /\ opt_string_eqb (voice_room_id u) (current_room_id u) = true /\
     m = negb (voice_muted u) /\ voice_muted u' = m).
Proof.
  unfold ui_step.
  destruct (match selected_room u with Some _ => true | None => false end);
  destruct (in_voice u) eqn:Ei;
  destruct (opt_string_eqb (voice_room_id u) (current_room_id u)) eqn:Eq;
  destruct (current_room_id u) as [rid |] eqn:Ec;
  destruct inp; cbn [andb negb];
  repeat match goal with
    | |- context [if ?b then _ else _] => destruct b
    | |- context [match position ?r ?rs with Some _ => _ | None => _ end] =>
        destruct (position r rs)
    end;
  cbn; repeat split; intros; repeat match goal with
    | H : _ \/ _ |- _ => destruct H
    | H : False |- _ => destruct H
    | H : CmdJoinVoice _ = CmdJoinVoice _ |- _ => inversion H; subst; clear H
    | H : CmdMuteVoice _ = CmdMuteVoice _ |- _ => inversion H; subst; clear H
    end; try discriminate; auto.
Qed.

End UiFacts.

(** ** Matrix client: login and registration *)

Module ClientFacts.

Import MatrixClient.

Lemma prefix_empty (s : string) : String.prefix "" s = true.
Proof. destruct s; reflexivity. Qed.

(** A full user id always starts with [@], and building it again from a full
    id gives it back unchanged, whatever the homeserver. *)
Theorem full_mxid_normal (username : string) (host host' : option string) :
  String.prefix "@" (full_mxid username host) = true /\
  full_mxid (full_mxid username host) host' = full_mxid username host.
Proof.
  unfold full_mxid.
  destruct (String.prefix "@" username) eqn:E; [rewrite E; split; reflexivity |].
  cbn. rewrite prefix_empty. split; reflexivity.
Qed.

Lemma prefix_spec (p s : string) :
  String.prefix p s = true <-> exists b, s = String.append p b.
Proof.
  revert s. induction p as [|c p IH]; intros s.
  - destruct s; cbn; split; intros; eauto.
  - destruct s as [|c' s]; cbn.
    + split; [discriminate | intros [b Hb]; discriminate].
    + destruct (Ascii.ascii_dec c c') as [-> | Hne].
      * rewrite IH. split; intros [b Hb]; exists b; congruence.
      * split; [discriminate | intros [b Hb]; congruence].
Qed.

Lemma contains_spec (pat s : string) :
  contains pat s = true <->
  exists a b, s = String.append a (String.append pat b).
Proof.
  induction s as [|c s IH].
  - cbn [contains]. rewrite orb_false_r, prefix_spec. split.
    + intros [b Hb]. exists EmptyString, b. exact Hb.
    + intros [a [b Hab]]. destruct a; [exists b; exact Hab | discriminate].
  - cbn [contains]. rewrite orb_true_iff, prefix_spec, IH. split.
    + intros [[b Hb] | [a [b Hab]]].
      * exists EmptyString, b. exact Hb.
      * exists (String c a), b. cbn. now rewrite Hab.
    + intros [a [b Hab]]. destruct a as [|c' a]; cbn in Hab.
      * left. exists b. exact Hab.
      * right. inversion Hab; subst. exists a, b. reflexivity.
Qed.

(** Registration counts as done when the server accepts it, or when it fails
    with an HTTP error whose text contains [M_USER_IN_USE] anywhere (the
    account already exists); any other HTTP error and any non-HTTP error is
    reported. *)
Theorem register_accepts_user_in_use (outcome : option RegisterError) :
  register outcome = true <->
  outcome = None \/
  exists a b, outcome = Some (RegHttp (String.append a (String.append "M_USER_IN_USE" b))).
Proof.
  destruct outcome as [[msg | msg] |]; cbn.
  - rewrite contains_spec. split.
    + intros [a [b ->]]. right. exists a, b. reflexivity.
    + intros [H | [a [b H]]]; [discriminate |]. inversion H. exists a, b. reflexivity.
  - split; [discriminate |]. intros [H | [a [b H]]]; discriminate.
  - split; [intros _; left; reflexivity | reflexivity].
Qed.

(** [login] succeeds exactly when the client is already logged in, a saved
    session is restored, or the user id parses and the password login goes
    through.  A password login is made only when the client was not logged in
    and no saved session was restored, always with the full user id; a saved
    session that failed to restore is removed first.  The session file is
    written only after a successful password login. *)
Theorem login_effects (env : LoginEnv) (username : string) :
  let mxid := full_mxid username (host_str env) in
  let '(r, acts) := login env username in
  (r = LoginOk <->
     logged_in env = true \/
     (saved_session_loads env = true /\ restore_ok env = true) \/
     (user_id_parses env mxid = true /\ login_send_ok env = true)) /\
  (forall m, In (PasswordLogin m) acts ->
     m = mxid /\ logged_in env = false /\
     (saved_session_loads env = true ->
        restore_ok env = false /\ firstn 2 acts = [RestoreSession; RemoveSessionFile])) /\
  (In WriteSessionFile acts -> r = LoginOk /\ In (PasswordLogin mxid) acts).
Proof.
  unfold login. cbv zeta.
  destruct (logged_in env) eqn:El.
  { split; [tauto |]. split; [intros m [] | intros []]. }
  destruct (saved_session_loads env) eqn:Es, (restore_ok env) eqn:Er;
  cbv beta iota;
  try (split; [split; [tauto | intros _; reflexivity] |];
       split; [intros m [H | []]; discriminate | intros [H | []]; discriminate]);
  destruct (user_id_parses env (full_mxid username (host_str env))) eqn:Ep,
           (login_send_ok env) eqn:Eo; cbn [negb];
  destruct (session_present env && serialise_ok env);
  cbn; (split; [split; [first [intros _; tauto | intros H; try discriminate;
                                destruct H as [H | [[H1 H2] | [H1 H2]]]; discriminate]
                       | first [intros _; reflexivity
                               | intros [H | [[H1 H2] | [H1 H2]]]; discriminate]] |]);
  split; intros;
  repeat match goal with
         | H : _ \/ _ |- _ => destruct H
         | H : False |- _ => destruct H
         | H : PasswordLogin _ = PasswordLogin _ |- _ => inversion H; subst; clear H
         end;
  try discriminate; repeat split; auto; try discriminate;
  try (intros; split; reflexivity); tauto.
Qed.

End ClientFacts.

(** ** Sidecar token endpoint *)

Module SidecarFacts.

Import Sidecar.

Section Vars.

Variable base64_url_nopad : string -> string.
Variable to_jwt : string -> string -> Grants -> option string.
Variable hmac_sha1_b64 : string -> string -> option string.
Variable u64_to_string : Z -> string.

Local Abbreviation handler := (token_handler base64_url_nopad to_jwt hmac_sha1_b64 u64_to_string).
Local Abbreviation turn := (build_turn_servers hmac_sha1_b64 u64_to_string).

(** The Matrix homeserver is asked (whoami) exactly when the request carries
    an [Authorization] header starting with [Bearer ]; the answer is 401
    exactly when that header is missing or malformed, or whoami answers with
    a non-success status; every other failure is a 500. *)
Theorem token_handler_errors (st : AppState) (now : Z) (auth : option string)
  (room_id : string) (w : Whoami) :
  let '(res, asked) := handler st now auth room_id w in
  (asked = true <-> exists v b, auth = Some v /\ strip_prefix "Bearer " v = Some b) /\
  (res = inr Unauthorized <->
     (forall v, auth = Some v -> strip_prefix "Bearer " v = None) \/
     (asked = true /\ exists body, w = WhoamiReply false body)) /\
  (res = inr InternalServerError ->
     asked = true /\ (w = WhoamiSendErr \/ exists body, w = WhoamiReply true body)).
Proof.
  unfold token_handler.
  destruct auth as [v |]; cbv beta iota;
  [destruct (strip_prefix "Bearer " v) as [b |] eqn:Eb |].
  - destruct w as [| [|] [[uid |] |]]; cbv beta iota;
    try destruct (to_jwt _ _ _);
    (split; [split; [intros _; eauto | reflexivity] |]);
    (split; [split; [intros H | intros [H | [_ [body H]]]] | intros H]);
    first [ discriminate | reflexivity
          | specialize (H v eq_refl); congruence
          | right; split; [reflexivity | eexists; reflexivity]
          | split; [reflexivity | first [left; reflexivity | right; eexists; reflexivity]] ].
  - split; [split; [discriminate | intros [v' [b [Hv Hb]]]; inversion Hv; subst; congruence] |].
    split; [split; [intros _; left; intros v' Hv'; inversion Hv'; subst; exact Eb
                  | reflexivity] |].
    discriminate.
  - split; [split; [discriminate | intros [v' [b [Hv _]]]; discriminate] |].
    split; [split; [intros _; left; intros v' Hv'; discriminate | reflexivity] |].
    discriminate.
Qed.

(** A token is issued only for a bearer request whose whoami succeeded with a
    string [user_id]; the token is signed with the configured key and secret
    for that user as identity and name, joining, publishing and subscribing
    in the room named by the base64 (URL-safe, unpadded) encoding of the
    requested room id; the response carries the configured LiveKit URL and
    the TURN servers built for that user.  Conversely, such a request gets a
    token whenever the signing succeeds. *)
Theorem token_handler_success (st : AppState) (now : Z) (auth : option string)
  (room_id : string) (w : Whoami) :
  let grants uid := {| identity := uid; name := uid; room_join := true;
                       room := base64_url_nopad room_id; can_publish := true;
                       can_subscribe := true |} in
  (forall r, fst (handler st now auth room_id w) = inl r ->
     (exists v b, auth = Some v /\ strip_prefix "Bearer " v = Some b) /\
     exists uid tok,
       w = WhoamiReply true (Some (Some uid)) /\
       to_jwt (livekit_key st) (livekit_secret st) (grants uid) = Some tok /\
       r = {| resp_livekit_url := livekit_url st; resp_livekit_token := tok;
              turn_servers := turn st now uid |}) /\
  (forall v b uid tok, auth = Some v -> strip_prefix "Bearer " v = Some b ->
     w = WhoamiReply true (Some (Some uid)) ->
     to_jwt (livekit_key st) (livekit_secret st) (grants uid) = Some tok ->
     fst (handler st now auth room_id w) =
       inl {| resp_livekit_url := livekit_url st; resp_livekit_token := tok;
              turn_servers := turn st now uid |}).
Proof.
  cbv zeta. split.
  - intros r. unfold token_handler.
    destruct auth as [v |]; [| discriminate]. cbv beta iota.
    destruct (strip_prefix "Bearer " v) as [b |] eqn:Eb; [| discriminate].
    destruct w as [| [|] [[uid |] |]]; try discriminate.
    destruct (to_jwt _ _ _) as [tok |] eqn:Ej; [| discriminate].
    cbn [fst]. intros H. inversion H; subst.
    split; [eauto |]. exists uid, tok. auto.
  - intros v b uid tok -> Eb -> Ej. unfold token_handler. cbv beta iota.
    rewrite Eb, Ej. reflexivity.
Qed.

(** Without both [TURN_SECRET] and [TURN_HOST] configured no TURN server is
    built, and a token response then serializes without a [turn_servers]
    key. *)
Theorem turn_unconfigured_omitted (st : AppState) (now : Z) (uid : string)
  (Hcfg : turn_secret st = None \/ turn_host st = None) :
  turn st now uid = [] /\
  forall auth room_id w r,
    fst (handler st now auth room_id w) = inl r ->
    ~ In "turn_servers"%string (response_keys r).
Proof.
  assert (Hnil : forall u, turn st now u = []).
  { intros u. unfold build_turn_servers.
    destruct Hcfg as [-> | ->]; [reflexivity | destruct (turn_secret st); reflexivity]. }
  split; [apply Hnil |].
  intros auth room_id w r Hr.
  unfold token_handler in Hr.
  destruct auth as [v |]; [| discriminate]. cbv beta iota in Hr.
  destruct (strip_prefix "Bearer " v); [| discriminate].
  destruct w as [| [|] [[u |] |]]; try discriminate.
  destruct (to_jwt _ _ _) as [tok |]; [| discriminate].
  cbn [fst] in Hr. inversion Hr; subst. unfold response_keys. cbn [turn_servers].
  rewrite Hnil. cbn. intros [H | [H | []]]; discriminate.
Qed.

(** With TURN configured there is at most one TURN server, at port 3478 of
    the configured host; for a clock that does not make [now + 86400]
    overflow, its username is the expiry [now + 86400] followed by [:] and
    the user id, and its credential the HMAC-SHA1 of that username under the
    TURN secret.  It is left out only when the HMAC key is refused. *)
Theorem turn_server_credentials (st : AppState) (now : Z) (uid secret host : string)
  (Hsecret : turn_secret st = Some secret) (Hhost : turn_host st = Some host)
  (Hnow : (0 <= now /\ now + 86400 < 2 ^ 64)%Z) :
  let uname := String.append (u64_to_string (now + 86400)) (String.append ":" uid) in
  turn st now uid =
    match hmac_sha1_b64 secret uname with
    | Some cred =>
        [{| urls := String.append "turn:" (String.append host ":3478");
            username := uname; credential := cred |}]
    | None => []
    end.
Proof.
  cbv zeta. unfold build_turn_servers. rewrite Hsecret, Hhost. cbv zeta.
  rewrite (Z.mod_small (now + 86400) (2 ^ 64)) by lia. reflexivity.
Qed.

End Vars.

Lemma turn_unconfigured_omitted_witness :
  build_turn_servers (fun _ _ => Some "c"%string) (fun _ => "t"%string)
    {| livekit_url := "ws"; livekit_key := "k"; livekit_secret := "s";
       turn_secret := None; turn_host := Some "h"%string |} 0 "u" = [].
Proof.
  apply (turn_unconfigured_omitted (fun s => s) (fun _ _ _ => Some "tok"%string)
           (fun _ _ => Some "c"%string) (fun _ => "t"%string)).
  left. reflexivity.
Defined.

Lemma turn_server_credentials_witness :
  build_turn_servers (fun _ u => Some u) (fun _ => "t"%string)
    {| livekit_url := "ws"; livekit_key := "k"; livekit_secret := "s";
       turn_secret := Some "sec"%string; turn_host := Some "h"%string |} 0 "u" =
  [{| urls := "turn:h:3478"; username := "t:u"; credential := "t:u" |}].
Proof.
  apply (turn_server_credentials (fun _ u => Some u) (fun _ => "t"%string)
           {| livekit_url := "ws"; livekit_key := "k"; livekit_secret := "s";
              turn_secret := Some "sec"%string; turn_host := Some "h"%string |}
           0 "u" "sec" "h"); [reflexivity | reflexivity | lia].
Defined.

End SidecarFacts.

(** ** Frames built by the capture feeder *)

Module CaptureExtra.

Import Capture.

(** For a channel count of at least one and a batch shorter than [2^32]
    samples, a feeder frame carries as many samples as the batch, muted or
    not, and its header describes them: [samples_per_channel] whole frames of
    [num_channels] samples, plus the remainder of the division (a batch that
    does not fill the last channel frame). *)
Theorem feeder_frame_layout (muted : bool) (sr ch : Z) (samples : list Z)
  (Hch : (1 <= ch)%Z) (Hlen : (Z.of_nat (length samples) < 2 ^ 32)%Z) :
  let f := feeder_frame muted sr ch samples in
  length (data f) = length samples /\ num_channels f = ch /\ sample_rate f = sr /\
  Z.of_nat (length (data f)) =
    (samples_per_channel f * num_channels f + Z.of_nat (length samples) mod ch)%Z.
Proof.
  cbv zeta. unfold feeder_frame; cbn [data num_channels sample_rate samples_per_channel].
  assert (Hl : length (if muted then repeat 0%Z (length samples) else samples) =
               length samples) by (destruct muted; [apply repeat_length | reflexivity]).
  rewrite Hl. repeat split.
  rewrite Z.max_l by exact Hch.
  rewrite (Z.mod_small (Z.of_nat (length samples)) (2 ^ 32)) by lia.
  rewrite Z.mul_comm. apply Z.div_mod. lia.
Qed.

Lemma feeder_frame_layout_witness :
  let f := feeder_frame true 48000 2 [5%Z; 6%Z; 7%Z] in
  length (data f) = 3 /\ num_channels f = 2%Z /\ sample_rate f = 48000%Z /\
  Z.of_nat (length (data f)) =
    (samples_per_channel f * num_channels f + Z.of_nat 3 mod 2)%Z.
Proof.
  apply (feeder_frame_layout true 48000 2 [5%Z; 6%Z; 7%Z]); [lia | cbn; lia].
Defined.

End CaptureExtra.
